(** * PDF to Audiobook converter: a shallow embedding of [pdf_to_audiobook.py]

    The development embeds the pure core of the converter -- text cleaning,
    page extraction, page-range parsing, the chunking loop and the per-page
    export loop -- and proves the properties of its specification.

    Conventions.
    - A Python [str] is a list of characters; a character is an [ascii],
      read as the code point U+0000 .. U+00FF.  On that range the tables
      below ([isspace], decimal digits) are the ones of CPython.
    - A Python [int] is a [Z]; indices and sizes are never truncated.
    - A [while] loop that the source does not bound is run with fuel: it
      answers [None] when the fuel is exhausted, and the theorems give the
      fuel that suffices.
    - An exception is a value of [exn]; a statement that may raise answers
      in [result]. *)

From Stdlib Require Import Ascii String DecimalString.
From Stdlib Require Import List ZArith Lia Bool Arith Sorted.
From Stdlib Require DecimalPos.
Import ListNotations.

#[local] Open Scope Z_scope.

(** ** Python strings *)

Definition str := list ascii.

(** A literal. *)
Definition s (lit : string) : str := list_ascii_of_string lit.

Definition len (t : str) : Z := Z.of_nat (length t).

Definition space : ascii := " "%char.
Definition newline : ascii := ascii_of_nat 10.
Definition form_feed : ascii := ascii_of_nat 12.
Definition hyphen : ascii := "-"%char.

(** [str.isspace] on one character (CPython's [_PyUnicode_IsWhitespace],
    restricted to U+0000 .. U+00FF): U+0009..U+000D, U+001C..U+0020,
    U+0085 and U+00A0. *)
Definition isspace (c : ascii) : bool :=
  let n := nat_of_ascii c in
  ((9 <=? n)%nat && (n <=? 13)%nat) || ((28 <=? n)%nat && (n <=? 32)%nat)
  || (n =? 133)%nat || (n =? 160)%nat.

(** Index normalisation shared by slicing and by the [start]/[end]
    arguments of [str.rfind]: a negative index counts from the end, and
    the result is clamped to [0, len]. *)
Definition adjust_index (n i : Z) : Z :=
  if i <? 0 then Z.max 0 (i + n) else Z.min i n.

(** [t[start:stop]]. *)
Definition slice (t : str) (start stop : Z) : str :=
  let a := adjust_index (len t) start in
  let b := adjust_index (len t) stop in
  firstn (Z.to_nat (b - a)) (skipn (Z.to_nat a) t).

(** Position of the last occurrence of [c] in [t], if any. *)
Fixpoint rindex (c : ascii) (t : str) : option nat :=
  match t with
  | [] => None
  | x :: tl =>
      match rindex c tl with
      | Some k => Some (S k)
      | None => if Ascii.eqb x c then Some O else None
      end
  end.

(** [t.rfind(c, start, stop)] for a one-character needle: the highest index
    in [t[start:stop]] holding [c], or -1. *)
Definition rfind (t : str) (c : ascii) (start stop : Z) : Z :=
  match rindex c (slice t start stop) with
  | Some k => adjust_index (len t) start + Z.of_nat k
  | None => -1
  end.

(** [t[i]] for an index in range. *)
Definition char_at (t : str) (i : Z) : option ascii :=
  if i <? 0 then None else nth_error t (Z.to_nat i).

(** ** The chunking loop ([convert_clicked], the body of [job]) *)

(** One iteration of the [while]: the value of [end] when the chunk is
    appended, for the cursor [start]. *)
Definition window_end (text : str) (chunk_size start : Z) : Z :=
  let end_ := Z.min (start + chunk_size) (len text) in
  if end_ <? len text then
    let next_space := rfind text space start end_ in
    if next_space >? start then next_space else end_
  else end_.

(** [while start < len(text): ...; chunks.append(text[start:end]); start = end].
    [None] is a loop that has not finished within [fuel] tests of its
    condition. *)
Fixpoint chunk_while (fuel : nat) (text : str) (chunk_size start : Z)
    (chunks : list str) : option (list str) :=
  match fuel with
  | O => None
  | S fuel' =>
      if start <? len text then
        let end_ := window_end text chunk_size start in
        chunk_while fuel' text chunk_size end_ (chunks ++ [slice text start end_])
      else Some chunks
  end.

(** The chunks of one page. *)
Definition chunk_text (fuel : nat) (text : str) (chunk_size : Z)
    : option (list str) :=
  if len text <=? chunk_size then Some [text]
  else chunk_while fuel text chunk_size 0 [].

(** ** Text cleaning *)

(** [s.strip()]: leading and trailing whitespace removed. *)
Fixpoint lstrip (t : str) : str :=
  match t with
  | c :: tl => if isspace c then lstrip tl else t
  | [] => []
  end.

Definition rstrip (t : str) : str := rev (lstrip (rev t)).

Definition strip (t : str) : str := rstrip (lstrip t).

(** Truth value of a string: [if text:]. *)
Definition truthy (t : str) : bool :=
  match t with [] => false | _ :: _ => true end.

(** The regular expression [\n\s*\n+], matched by backtracking as [re]
    does.  [match_ws_nl t] matches [\s*\n+] at the head of [t] and gives
    the number of characters consumed: the greedy [\s*] first tries to take
    one more whitespace character, and gives it back when the rest cannot
    match; [\n+] then takes every newline that follows. *)
Fixpoint newline_run (t : str) : nat :=
  match t with
  | c :: tl => if Ascii.eqb c newline then S (newline_run tl) else O
  | [] => O
  end.

Fixpoint match_ws_nl (t : str) : option nat :=
  match t with
  | [] => None
  | c :: tl =>
      match (if isspace c then match_ws_nl tl else None) with
      | Some k => Some (S k)
      | None => if Ascii.eqb c newline then Some (S (newline_run tl)) else None
      end
  end.

(** [\n\s*\n+] at the head of [t]. *)
Definition match_blank_lines (t : str) : option nat :=
  match t with
  | c :: tl =>
      if Ascii.eqb c newline then option_map S (match_ws_nl tl) else None
  | [] => None
  end.

(** [re.sub(r'\n\s*\n+', '\n\n', t)]: the leftmost matches, not overlapping,
    each replaced.  [skip] counts the characters of the current match that
    are still to be dropped. *)
Fixpoint sub_blank_lines (skip : nat) (t : str) : str :=
  match t with
  | [] => []
  | c :: tl =>
      match skip with
      | S k => sub_blank_lines k tl
      | O =>
          match match_blank_lines t with
          | Some (S k) => newline :: newline :: sub_blank_lines k tl
          | _ => c :: sub_blank_lines O tl
          end
      end
  end.

(** [s.replace(c, '')]. *)
Definition remove_char (c : ascii) (t : str) : str :=
  filter (fun x => negb (Ascii.eqb x c)) t.

Definition clean_text (t : str) : str :=
  let t := sub_blank_lines O t in
  let t := remove_char form_feed t in
  strip t.

(** ** Exceptions *)

(** The exceptions met here, all of class [Exception]. *)
Inductive exn : Type :=
| ValueError      (* int() on a malformed literal; load_page off the document *)
| RuntimeError    (* raised by TTSManager: "pyttsx3 engine not initialized" *)
| FileError       (* fitz.open on a missing or unreadable file *)
| EngineError (code : nat).  (* anything a speech engine raises *)

Inductive result (A : Type) : Type :=
| Ok (a : A)
| Raise (e : exn).

Arguments Ok {A} a.
Arguments Raise {A} e.

Definition bind {A B : Type} (r : result A) (k : A -> result B) : result B :=
  match r with
  | Ok a => k a
  | Raise e => Raise e
  end.

Notation "x <- r ;; k" := (bind r (fun x => k))
  (at level 61, r at next level, right associativity).

(** ** Page extraction ([extract_text_from_pdf]) *)

(** A document, as PyMuPDF shows it: for each page, what [get_text()] gives. *)
Definition Document := list str.

Definition page_count (doc : Document) : Z := Z.of_nat (length doc).

(** [doc.load_page(i)]: a negative [i] counts backwards, cyclically; an
    index from [page_count] on is refused. *)
Definition load_page (doc : Document) (i : Z) : result str :=
  if page_count doc <=? i then Raise ValueError
  else match nth_error doc (Z.to_nat (i mod page_count doc)) with
       | Some page => Ok page
       | None => Raise ValueError
       end.

(** The files that [fitz.open] can read. *)
Definition FileSystem := str -> option Document.

Definition fitz_open (fs : FileSystem) (path : str) : result Document :=
  match fs path with
  | Some doc => Ok doc
  | None => Raise FileError
  end.

(** [range(a, b)]. *)
Definition range (a b : Z) : list Z :=
  map (fun k => a + Z.of_nat k) (seq 0 (Z.to_nat (b - a))).

(** ** Messages and windows *)

(** [os.path.join(outdir, name)], kept as its two components. *)
Definition Path : Type := str * str.

Inductive LogMsg : Type :=
| PageChars (page_no n : Z)            (* "Page {i+1}: {len(cleaned)} chars" *)
| PageSkipped (page_no : Z)            (* "Page {i+1}: (empty) skipped" *)
| ExtractionComplete (n : Z)
| ExtractionError (e : exn)
| StartingConversion
| SavingPage (page_no : Z) (via : str) (out_path : Path)
| Pyttsx3Starting
| GttsGenerating
| Saved (via : str) (out_path : Path)
| PageExported (page_no : Z) (out_path : Path)
| ErrorSavingPage (page_no : Z) (e : exn)
| ConversionFinished.

Inductive Dialog : Type :=
| WarnNoPdf
| ErrorInvalidRange
| WarnNoText
| InfoDone (outdir : str).

(** The body of the [for] loop of [extract_text_from_pdf]; [logs] are the
    calls of [log] so far.  An exception leaves the loop. *)
Fixpoint extract_loop (doc : Document) (pages : list Z)
    (all_text : list (Z * str)) (logs : list LogMsg)
    : list LogMsg * result (list (Z * str)) :=
  match pages with
  | [] => (logs, Ok all_text)
  | i :: rest =>
      match load_page doc i with
      | Raise e => (logs, Raise e)
      | Ok page =>
          let text := strip page in
          if truthy text then
            let cleaned := clean_text text in
            extract_loop doc rest (all_text ++ [(i + 1, cleaned)])
              (logs ++ [PageChars (i + 1) (len cleaned)])
          else
            extract_loop doc rest all_text (logs ++ [PageSkipped (i + 1)])
      end
  end.

Definition extract_text_from_pdf (fs : FileSystem) (path : str)
    (start_page end_page : option Z)
    : list LogMsg * result (list (Z * str)) :=
  match fitz_open fs path with
  | Raise e => ([], Raise e)
  | Ok doc =>
      let start_page :=
        match start_page with None => 0 | Some p => Z.max 0 p end in
      let end_page :=
        match end_page with
        | None => page_count doc - 1
        | Some p => Z.min (page_count doc - 1) p
        end in
      extract_loop doc (range start_page (end_page + 1)) [] []
  end.

(** ** Page-range parsing ([extract_clicked]) *)

(** [t.split(sep)] for a one-character separator: always at least one
    field. *)
Fixpoint split (sep : ascii) (t : str) : list str :=
  match t with
  | [] => [[]]
  | c :: tl =>
      if Ascii.eqb c sep then [] :: split sep tl
      else match split sep tl with
           | field :: fields => (c :: field) :: fields
           | [] => [[c]]
           end
  end.

Definition digit_value (c : ascii) : option Z :=
  let n := nat_of_ascii c in
  if ((48 <=? n)%nat && (n <=? 57)%nat)%bool then Some (Z.of_nat (n - 48))
  else None.

(** The digits of an [int] literal: one underscore is allowed between two
    digits.  [after_digit] tells whether the previous character was a
    digit. *)
Fixpoint parse_digits (t : str) (acc : Z) (after_digit : bool) : option Z :=
  match t with
  | [] => if after_digit then Some acc else None
  | c :: tl =>
      match digit_value c with
      | Some d => parse_digits tl (10 * acc + d) true
      | None =>
          if (Ascii.eqb c "_"%char && after_digit)%bool
          then parse_digits tl acc false
          else None
      end
  end.

(** The whitespace that [int] skips around a number.  It is not the table
    of [str.strip]: the ASCII characters are tested with C's [isspace]
    (U+0009..U+000D and the space), so U+001C..U+001F are not skipped;
    U+0085 and U+00A0 are. *)
Definition int_space (c : ascii) : bool :=
  let n := nat_of_ascii c in
  isspace c && negb ((28 <=? n)%nat && (n <=? 31)%nat).

Fixpoint int_lstrip (t : str) : str :=
  match t with
  | c :: tl => if int_space c then int_lstrip tl else t
  | [] => []
  end.

Definition int_strip (t : str) : str := rev (int_lstrip (rev (int_lstrip t))).

Definition is_digit (c : ascii) : bool :=
  match digit_value c with Some _ => true | None => false end.

(** [sys.get_int_max_str_digits()], which the program leaves at its
    default: a literal with more digits is refused. *)
Definition max_str_digits : Z := 4300.

(** [int(t)] in base ten: surrounding whitespace, an optional sign, digits,
    and no more of them than [max_str_digits]. *)
Definition py_int (t : str) : result Z :=
  let body := int_strip t in
  let parsed :=
    match body with
    | c :: tl =>
        if Ascii.eqb c "+"%char then parse_digits tl 0 false
        else if Ascii.eqb c "-"%char
             then option_map Z.opp (parse_digits tl 0 false)
             else parse_digits body 0 false
    | [] => None
    end in
  match parsed with
  | Some n =>
      if Z.of_nat (length (filter is_digit body)) <=? max_str_digits
      then Ok n
      else Raise ValueError
  | None => Raise ValueError
  end.

(** [parts[k]] of a list that [split] made; [parts[0]] always exists. *)
Definition item (parts : list str) (k : nat) : str := nth k parts [].

(** The [try] block of [extract_clicked], for a non-empty entry [pr]. *)
Definition parse_page_range (pr : str) : result (option Z * option Z) :=
  let parts := split hyphen pr in
  if (length parts =? 2)%nat then
    a <- py_int (item parts 0) ;;
    b <- py_int (item parts 1) ;;
    Ok (Some (a - 1), Some (b - 1))
  else
    a <- py_int (item parts 0) ;;
    Ok (Some (a - 1), Some (a - 1)).

(** ** The application *)

(** [TTSManager]: the engine it was built for, and the rate it was given. *)
Record TTSManager : Type := mkTTSManager {
  engine_name : str;
  engine_rate : option Z
}.

Record App : Type := mkApp {
  pdf_path : option str;
  pages_entry : str;              (* the page-range entry *)
  engine_var : str;
  rate_var : Z;
  chunk_var : Z;
  extracted : list (Z * str);     (* list of (page_no, text) *)
  pages_list : list (Z * str);    (* the list box: page and preview *)
  log_text : list LogMsg;
  dialogs : list Dialog;          (* message boxes shown, oldest first *)
  tts_manager : TTSManager;
  spoken : list (str * Path)      (* texts handed to a speech engine *)
}.

Definition log (msgs : list LogMsg) (app : App) : App :=
  mkApp (pdf_path app) (pages_entry app) (engine_var app) (rate_var app)
    (chunk_var app) (extracted app) (pages_list app)
    (log_text app ++ msgs) (dialogs app) (tts_manager app) (spoken app).

Definition show (d : Dialog) (app : App) : App :=
  mkApp (pdf_path app) (pages_entry app) (engine_var app) (rate_var app)
    (chunk_var app) (extracted app) (pages_list app)
    (log_text app) (dialogs app ++ [d]) (tts_manager app) (spoken app).

Definition set_extracted (pages : list (Z * str)) (app : App) : App :=
  mkApp (pdf_path app) (pages_entry app) (engine_var app) (rate_var app)
    (chunk_var app) pages (pages_list app)
    (log_text app) (dialogs app) (tts_manager app) (spoken app).

Definition set_pages_list (entries : list (Z * str)) (app : App) : App :=
  mkApp (pdf_path app) (pages_entry app) (engine_var app) (rate_var app)
    (chunk_var app) (extracted app) entries
    (log_text app) (dialogs app) (tts_manager app) (spoken app).

Definition set_manager (m : TTSManager) (app : App) : App :=
  mkApp (pdf_path app) (pages_entry app) (engine_var app) (rate_var app)
    (chunk_var app) (extracted app) (pages_list app)
    (log_text app) (dialogs app) m (spoken app).

Definition speak (text : str) (out_path : Path) (app : App) : App :=
  mkApp (pdf_path app) (pages_entry app) (engine_var app) (rate_var app)
    (chunk_var app) (extracted app) (pages_list app)
    (log_text app) (dialogs app) (tts_manager app)
    (spoken app ++ [(text, out_path)]).

(** [text[:120].replace('\n', ' ')]. *)
Definition preview (text : str) : str :=
  map (fun c => if Ascii.eqb c newline then space else c) (slice text 0 120).

(** [extract_clicked].  The background job is run to its end. *)
Definition extract_clicked (fs : FileSystem) (app : App) : App :=
  match pdf_path app with
  | Some ((_ :: _) as path) =>
      let pr := strip (pages_entry app) in
      let parsed :=
        if truthy pr then parse_page_range pr else Ok (None, None) in
      match parsed with
      | Raise _ => show ErrorInvalidRange app
      | Ok (start_page, end_page) =>
          let app := set_pages_list [] app in
          match extract_text_from_pdf fs path start_page end_page with
          | (logs, Ok pages) =>
              let app := set_extracted pages (log logs app) in
              let app :=
                set_pages_list
                  (map (fun '(p, text) => (p, preview text)) pages) app in
              log [ExtractionComplete (Z.of_nat (length pages))] app
          | (logs, Raise e) => log [ExtractionError e] (log logs app)
          end
      end
  | _ => show WarnNoPdf app
  end.

(** ** Conversion ([convert_clicked]) *)

Definition pyttsx3 : str := s "pyttsx3".
Definition gTTS : str := s "gTTS".

Definition str_eqb (a b : str) : bool :=
  if list_eq_dec ascii_dec a b then true else false.

(** [sep.join(parts)]. *)
Fixpoint join (sep : str) (parts : list str) : str :=
  match parts with
  | [] => []
  | p :: rest =>
      match rest with
      | [] => p
      | _ :: _ => p ++ sep ++ join sep rest
      end
  end.

(** [f"page_{page_no}.mp3"]. *)
Definition page_file (page_no : Z) : str :=
  s "page_" ++ s (NilZero.string_of_int (Z.to_int page_no)) ++ s ".mp3".

(** What the speech engines do is not in the program: the k-th call made
    to an engine (counting from 0) raises [tape k], or succeeds when
    [tape k] is [None]. *)
Definition Tape := nat -> option exn.

Definition set_rate (rate : Z) (m : TTSManager) : TTSManager :=
  if str_eqb (engine_name m) pyttsx3
  then mkTTSManager (engine_name m) (Some rate)
  else m.

Definition save_text_to_mp3_pyttsx3 (tape : Tape) (text : str)
    (out_path : Path) (app : App) : App * result unit :=
  if negb (str_eqb (engine_name (tts_manager app)) pyttsx3)
  then (app, Raise RuntimeError)
  else
    let app := log [Pyttsx3Starting] app in
    match tape (length (spoken app)) with
    | Some e => (speak text out_path app, Raise e)
    | None => (log [Saved pyttsx3 out_path] (speak text out_path app), Ok tt)
    end.

Definition save_text_to_mp3_gtts (tape : Tape) (text : str)
    (out_path : Path) (app : App) : App * result unit :=
  let app := log [GttsGenerating] app in
  match tape (length (spoken app)) with
  | Some e => (speak text out_path app, Raise e)
  | None => (log [Saved gTTS out_path] (speak text out_path app), Ok tt)
  end.

(** The [try] ... [except Exception] of one page. *)
Definition export_page (tape : Tape) (engine outdir : str) (page_no : Z)
    (chunks : list str) (app : App) : App :=
  let out_path := (outdir, page_file page_no) in
  let attempt :=
    if str_eqb engine pyttsx3 then
      let full_text := join [newline; newline] chunks in
      save_text_to_mp3_pyttsx3 tape full_text out_path
        (log [SavingPage page_no pyttsx3 out_path] app)
    else
      let combined := join [space] chunks in
      save_text_to_mp3_gtts tape combined out_path
        (log [SavingPage page_no gTTS out_path] app) in
  match attempt with
  | (app, Ok _) => log [PageExported page_no out_path] app
  | (app, Raise e) => log [ErrorSavingPage page_no e] app
  end.

(** [for page_no, text in self.extracted: ...].  The chunking stands
    outside the [try]; [None] is a page whose chunking loop has not
    finished within [fuel]. *)
Fixpoint convert_pages (fuel : nat) (tape : Tape) (engine outdir : str)
    (chunk_size : Z) (pages : list (Z * str)) (app : App) : option App :=
  match pages with
  | [] => Some app
  | (page_no, text) :: rest =>
      match chunk_text fuel text chunk_size with
      | None => None
      | Some chunks =>
          convert_pages fuel tape engine outdir chunk_size rest
            (export_page tape engine outdir page_no chunks app)
      end
  end.

(** [convert_clicked]; [outdir] is the answer of the directory dialog.  The
    background job is run to its end. *)
Definition convert_clicked (fuel : nat) (tape : Tape) (outdir : str)
    (app : App) : option App :=
  match extracted app with
  | [] => Some (show WarnNoText app)
  | _ :: _ =>
      let engine := engine_var app in
      let rate := rate_var app in
      let chunk_size := chunk_var app in
      if negb (truthy outdir) then Some app
      else
        let app := log [StartingConversion] app in
        let app :=
          if str_eqb engine pyttsx3
          then set_manager (set_rate rate (tts_manager app)) app
          else app in
        match convert_pages fuel tape engine outdir chunk_size
                (extracted app) app with
        | None => None
        | Some app =>
            Some (show (InfoDone outdir) (log [ConversionFinished] app))
        end
  end.

(** ** Runs of the chunking loop *)

(** [chunks_from text chunk_size start chunks]: entered with the cursor at
    [start], the [while] loop appends [chunks] and leaves. *)
Inductive chunks_from (text : str) (chunk_size : Z) : Z -> list str -> Prop :=
| chunks_done (start : Z) :
    len text <= start ->
    chunks_from text chunk_size start []
| chunks_step (start : Z) (rest : list str) :
    start < len text ->
    chunks_from text chunk_size (window_end text chunk_size start) rest ->
    chunks_from text chunk_size start
      (slice text start (window_end text chunk_size start) :: rest).

(** The cursor after the chunks [done] have been appended, from cursor
    [start]. *)
Definition cursor_after (start : Z) (done : list str) : Z :=
  start + len (concat done).

(** A position strictly inside a token: a character that is not whitespace
    on either side. *)
Definition inside_token (text : str) (p : Z) : Prop :=
  exists c d, char_at text (p - 1) = Some c /\ char_at text p = Some d
              /\ isspace c = false /\ isspace d = false.

(** A token of [text]: a maximal run without whitespace. *)
Definition token_of (text tok : str) : Prop :=
  tok <> [] /\ forallb (fun c => negb (isspace c)) tok = true /\
  exists before after,
    text = before ++ tok ++ after
    /\ isspace (last before space) = true
    /\ isspace (hd space after) = true.

(** The text cut every [chunk_size] characters, whatever it holds:
    [text[0:n]], [text[n:2n]], ... *)
Definition raw_slices (text : str) (chunk_size start : Z) : list str :=
  map (fun k => slice text (start + Z.of_nat k * chunk_size)
                           (start + Z.of_nat k * chunk_size + chunk_size))
      (seq 0 (Z.to_nat ((len text - start + chunk_size - 1) / chunk_size))).

(** Two pages of 5000 characters: one with its only space at offset 2000,
    one with its only space at offset 1. *)
Definition page_space_2000 : str :=
  repeat "b"%char 2000 ++ space :: repeat "b"%char 2999.

Definition page_space_1 : str :=
  "a"%char :: space :: repeat "b"%char 4998.

(** ** Reading the results *)

(** A text with a character that is not whitespace. *)
Definition has_ink (t : str) : bool :=
  existsb (fun c => negb (isspace c)) t.

(** What page [i] (counted from 0) contributes to an extraction. *)
Definition page_entry (doc : Document) (i : Z) : list (Z * str) :=
  match nth_error doc (Z.to_nat i) with
  | Some raw =>
      if has_ink raw then [(i + 1, clean_text (strip raw))] else []
  | None => []
  end.

(** The record that the log keeps of one page of a conversion: the page
    and, for a failed page, the exception. *)
Definition outcome_of (m : LogMsg) : list (Z * option exn) :=
  match m with
  | PageExported page_no _ => [(page_no, None)]
  | ErrorSavingPage page_no e => [(page_no, Some e)]
  | _ => []
  end.

Definition outcomes (entries : list LogMsg) : list (Z * option exn) :=
  flat_map outcome_of entries.

(** The pages whose export was started. *)
Definition attempt_of (m : LogMsg) : list Z :=
  match m with
  | SavingPage page_no _ _ => [page_no]
  | _ => []
  end.

Definition attempts (entries : list LogMsg) : list Z :=
  flat_map attempt_of entries.

(** An application with a file chosen and a page range typed. *)
Definition app_with (path entry : str) (old : list (Z * str)) : App :=
  mkApp (Some path) entry pyttsx3 160 3500 old [] [] []
        (mkTTSManager pyttsx3 None) [].

(** The document of the specification's scenario. *)
Definition three_pages : Document :=
  [s "Hello world"; s ""; s "More text"].

Definition one_file (path : str) (doc : Document) : FileSystem :=
  fun p => if str_eqb p path then Some doc else None.

Definition five_pages : Document :=
  [s "one"; s "two"; s "three"; s "four"; s "five"].

(** Whether [save_text_to_mp3_pyttsx3] will find its engine: the manager
    was built for pyttsx3, or the other engine is used. *)
Definition engine_ready (engine : str) (app : App) : bool :=
  negb (str_eqb engine pyttsx3)
  || str_eqb (engine_name (tts_manager app)) pyttsx3.

(** How the [k]-th page of a job started from [app] ends: the next call to
    a speech engine decides, unless the manager refuses first. *)
Definition page_result (tape : Tape) (engine : str) (app : App) (k : nat)
    : option exn :=
  if engine_ready engine app then tape (length (spoken app) + k)%nat
  else Some RuntimeError.

(** The scenario of the specification: four pages, the remote engine, and
    a network failure on the third call. *)
Definition four_pages : list (Z * str) :=
  [(1, s "first page"); (2, s "second page"); (3, s "third page");
   (4, s "fourth page")].

Definition network_down_on_third : Tape :=
  fun k => if (k =? 2)%nat then Some (EngineError 1) else None.

Definition ready_to_convert : App :=
  mkApp (Some (s "book.pdf")) [] gTTS 160 3500 four_pages [] [] []
        (mkTTSManager gTTS None) [].

(** ** What is handed to the speech engine *)

(** The text of one page as [export_page] hands it to the engine. *)
Definition spoken_text (engine : str) (chunks : list str) : str :=
  if str_eqb engine pyttsx3 then join [newline; newline] chunks
  else join [space] chunks.

(** The state in which the job of [convert_clicked] enters its loop. *)
Definition job_start (app : App) : App :=
  let app := log [StartingConversion] app in
  if str_eqb (engine_var app) pyttsx3
  then set_manager (set_rate (rate_var app) (tts_manager app)) app
  else app.

(** The call that exports [page] when nothing is cut: the page text as it
    is, to [page_<n>.mp3] in [outdir]. *)
Definition verbatim_call (outdir : str) (page : Z * str) : str * Path :=
  (snd page, (outdir, page_file (fst page))).

(** The scenario of the specification, run to its end. *)
Definition converted : App :=
  match convert_clicked 100 network_down_on_third (s "out") ready_to_convert
  with
  | Some app => app
  | None => ready_to_convert
  end.

(** pyttsx3 chosen in the window, with a manager that was built for gTTS. *)
Definition mismatched : App :=
  mkApp (Some (s "book.pdf")) [] pyttsx3 160 3500 four_pages [] [] []
        (mkTTSManager gTTS None) [].

Definition mismatched_done : App :=
  match convert_clicked 100 network_down_on_third (s "out") mismatched with
  | Some app => app
  | None => mismatched
  end.

(** [str(n)], as an f-string prints a page number. *)
Definition decimal (n : Z) : str := s (NilZero.string_of_int (Z.to_int n)).

(** The number that a literal without surrounding whitespace stands for:
    the reading of [int], before its cap on the digits. *)
Definition read_number (body : str) : option Z :=
  match body with
  | c :: tl =>
      if Ascii.eqb c "+"%char then parse_digits tl 0 false
      else if Ascii.eqb c "-"%char
           then option_map Z.opp (parse_digits tl 0 false)
           else parse_digits body 0 false
  | [] => None
  end.

(** The entry ["<a>-<b>"]. *)
Definition range_entry (a b : Z) : str := decimal a ++ hyphen :: decimal b.

(** The characters of a text that are not whitespace, in order. *)
Definition ink (t : str) : str := filter (fun c => negb (isspace c)) t.

(** A text of whitespace only. *)
Definition blank (t : str) : bool := forallb isspace t.

(** A file system without any readable file, and an application whose
    page list is left from an earlier extraction. *)
Definition no_file : FileSystem := fun _ => None.

Definition with_old_pages : App :=
  mkApp (Some (s "gone.pdf")) (s "1-2") pyttsx3 160 3500
        [(9, s "old")] [(9, s "old")] [] []
        (mkTTSManager pyttsx3 None) [].

(** ** Blank lines *)

(** Where a reader stands in a stretch of whitespace: no newline met yet,
    one newline just met, or no further newline allowed. *)
Inductive gap : Type := Open | One | Closed.

(** A text where no stretch of whitespace holds more than two newlines,
    and two only side by side: at most one blank line between two
    paragraphs. *)
Fixpoint tidy_from (g : gap) (t : str) : bool :=
  match t with
  | [] => true
  | c :: tl =>
      if Ascii.eqb c newline then
        match g with
        | Open => tidy_from One tl
        | One => tidy_from Closed tl
        | Closed => false
        end
      else if isspace c then
        match g with
        | Open => tidy_from Open tl
        | _ => tidy_from Closed tl
        end
      else tidy_from Open tl
  end.

Definition tidy (t : str) : bool := tidy_from Open t.

(** ** Playback ([Player]) *)

(** The calls made to [pygame.mixer.music]. *)
Inductive MixerCall : Type :=
| MLoad (filepath : str)
| MPlay
| MStop
| MPause
| MUnpause.

(** The messages that a player hands to its [log]. *)
Inductive PlayerMsg : Type :=
| PlayFileNotFound
| Playing (filepath : str)     (* printed by its base name *)
| PlayError (e : exn)
| Stopped
| Paused
| Resumed.

(** What lies outside the player: the files that exist, and what
    [music.load] and [music.play] raise for a file.  The mixer is
    initialised by the constructor, so [stop], [pause] and [unpause] do
    not raise. *)
Record Sound : Type := mkSound {
  isfile : str -> bool;
  load_error : str -> option exn;
  play_error : str -> option exn
}.

Record Player : Type := mkPlayer {
  current : option str;
  paused : bool;
  mixer : list MixerCall;     (* calls made, oldest first *)
  said : list PlayerMsg       (* messages logged, oldest first *)
}.

(** [Player(log)]. *)
Definition new_player : Player := mkPlayer None false [] [].

Definition play (env : Sound) (filepath : str) (p : Player) : Player :=
  if negb (isfile env filepath) then
    mkPlayer (current p) (paused p) (mixer p) (said p ++ [PlayFileNotFound])
  else
    match load_error env filepath with
    | Some e =>
        mkPlayer (current p) (paused p) (mixer p ++ [MLoad filepath])
          (said p ++ [PlayError e])
    | None =>
        match play_error env filepath with
        | Some e =>
            mkPlayer (current p) (paused p)
              (mixer p ++ [MLoad filepath; MPlay]) (said p ++ [PlayError e])
        | None =>
            mkPlayer (Some filepath) (paused p)
              (mixer p ++ [MLoad filepath; MPlay])
              (said p ++ [Playing filepath])
        end
    end.

Definition stop (p : Player) : Player :=
  mkPlayer None (paused p) (mixer p ++ [MStop]) (said p ++ [Stopped]).

Definition pause (p : Player) : Player :=
  if negb (paused p) then
    mkPlayer (current p) true (mixer p ++ [MPause]) (said p ++ [Paused])
  else
    mkPlayer (current p) false (mixer p ++ [MUnpause]) (said p ++ [Resumed]).

(** The buttons of the window that drive the player. *)
Inductive Button : Type :=
| PressPlay (filepath : str)
| PressStop
| PressPause.

Definition press (env : Sound) (p : Player) (b : Button) : Player :=
  match b with
  | PressPlay filepath => play env filepath p
  | PressStop => stop p
  | PressPause => pause p
  end.

Definition presses (env : Sound) (buttons : list Button) (p : Player)
    : Player :=
  fold_left (press env) buttons p.

Definition is_pause_press (b : Button) : bool :=
  match b with PressPause => true | _ => false end.

Definition is_pause_call (m : MixerCall) : bool :=
  match m with MPause | MUnpause => true | _ => false end.

(** [MPause], [MUnpause], [MPause], ... : [n] calls, beginning with
    [MPause] when [resume] is false. *)
Fixpoint alternate (resume : bool) (n : nat) : list MixerCall :=
  match n with
  | O => []
  | S n' => (if resume then MUnpause else MPause) :: alternate (negb resume) n'
  end.

(** A folder with one file that plays. *)
Definition one_song : Sound :=
  mkSound (fun f => str_eqb f (s "page_1.mp3")) (fun _ => None)
          (fun _ => None).

(** What a conversion has no business with: the file, the entry, the
    settings, the page list, the list box and the manager. *)
Definition setup (app : App)
    : option str * str * str * Z * Z * list (Z * str) * list (Z * str)
      * TTSManager :=
  (pdf_path app, pages_entry app, engine_var app, rate_var app,
   chunk_var app, extracted app, pages_list app, tts_manager app).

(** Whether a press of Convert hands the rate of the window to a pyttsx3
    engine: a folder was chosen, there are pages, pyttsx3 is the engine
    chosen and the manager was built for it. *)
Definition rate_is_set (outdir : str) (app : App) : bool :=
  truthy outdir
  && match extracted app with [] => false | _ :: _ => true end
  && str_eqb (engine_var app) pyttsx3
  && str_eqb (engine_name (tts_manager app)) pyttsx3.

(** The scenario of the specification with the offline engine and a rate
    of 175 words a minute, and the state its job ends in. *)
Definition offline : App :=
  mkApp (Some (s "book.pdf")) [] pyttsx3 175 3500 four_pages [] [] []
        (mkTTSManager pyttsx3 None) [].

Definition offline_done : App :=
  match convert_clicked 100 network_down_on_third (s "out") offline with
  | Some app => app
  | None => offline
  end.

(** A page number of 4301 digits. *)
Definition huge_number : Z := 10 ^ 4300.

Definition huge_entry : App :=
  mkApp (Some (s "book.pdf")) (decimal huge_number) pyttsx3 160 3500
        [(9, s "old")] [(9, s "old")] [] []
        (mkTTSManager pyttsx3 None) [].

(** * Properties *)

(** ** Slices *)

Lemma len_nonneg (t : str) : 0 <= len t.
Proof. unfold len. lia. Qed.

Lemma len_app (t u : str) : len (t ++ u) = len t + len u.
Proof. unfold len. rewrite length_app. lia. Qed.

Lemma adjust_index_id (n i : Z) : 0 <= i <= n -> adjust_index n i = i.
Proof.
  intros H. unfold adjust_index.
  destruct (i <? 0) eqn:E; [apply Z.ltb_lt in E | apply Z.ltb_ge in E]; lia.
Qed.

Lemma slice_range (t : str) (a b : Z) :
  0 <= a <= len t -> 0 <= b <= len t ->
  slice t a b = firstn (Z.to_nat (b - a)) (skipn (Z.to_nat a) t).
Proof.
  intros Ha Hb. unfold slice. now rewrite !adjust_index_id.
Qed.

Lemma slice_len (t : str) (a b : Z) :
  0 <= a <= b -> b <= len t -> len (slice t a b) = b - a.
Proof.
  intros Ha Hb. rewrite slice_range by lia. unfold len in *.
  rewrite length_firstn, length_skipn. lia.
Qed.

Lemma slice_empty (t : str) (a : Z) : 0 <= a <= len t -> slice t a a = [].
Proof.
  intros Ha. rewrite slice_range by lia. now rewrite Z.sub_diag.
Qed.

Lemma slice_all (t : str) : slice t 0 (len t) = t.
Proof.
  pose proof (len_nonneg t). rewrite slice_range by lia.
  unfold len. rewrite Z.sub_0_r, Nat2Z.id. simpl. apply firstn_all.
Qed.

Lemma firstn_plus {A : Type} (n m : nat) (l : list A) :
  firstn (n + m) l = firstn n l ++ firstn m (skipn n l).
Proof.
  revert l. induction n as [| n IH]; intros [| x l]; simpl; auto.
  - now rewrite firstn_nil.
  - now rewrite IH.
Qed.

Lemma slice_app (t : str) (a b c : Z) :
  0 <= a <= b -> b <= c <= len t ->
  slice t a b ++ slice t b c = slice t a c.
Proof.
  intros Hab Hbc. rewrite !slice_range by lia.
  replace (Z.to_nat (c - a)) with (Z.to_nat (b - a) + Z.to_nat (c - b))%nat
    by lia.
  rewrite firstn_plus. f_equal. rewrite skipn_skipn.
  do 2 f_equal. lia.
Qed.

Lemma char_at_slice (t : str) (a b p : Z) :
  0 <= a <= b -> b <= len t -> a <= p < b ->
  nth_error (slice t a b) (Z.to_nat (p - a)) = char_at t p.
Proof.
  intros Ha Hb Hp. rewrite slice_range by lia. unfold char_at.
  destruct (p <? 0) eqn:E; [apply Z.ltb_lt in E; lia |].
  rewrite nth_error_firstn.
  destruct (Z.to_nat (p - a) <? Z.to_nat (b - a))%nat eqn:E1;
    [| apply Nat.ltb_ge in E1; lia].
  rewrite nth_error_skipn. f_equal. lia.
Qed.

(** ** [rfind] *)

Lemma rindex_Some (c : ascii) (t : str) (k : nat) :
  rindex c t = Some k ->
  nth_error t k = Some c
  /\ forall j, (k < j)%nat -> nth_error t j <> Some c.
Proof.
  revert k. induction t as [| x tl IH]; intros k; simpl; [discriminate |].
  destruct (rindex c tl) as [k' |] eqn:E.
  - intros [= <-]. destruct (IH k' eq_refl) as [Hk Hlast]. split; [exact Hk |].
    intros [| j] Hj; [lia |]. simpl. apply Hlast. lia.
  - destruct (Ascii.eqb x c) eqn:Ex; [| discriminate].
    intros [= <-]. apply Ascii.eqb_eq in Ex. subst x. split; [reflexivity |].
    intros [| j] Hj; [lia |]. simpl. clear -E.
    revert j. induction tl as [| y tl IH]; intros j.
    + destruct j; discriminate.
    + simpl in E. destruct (rindex c tl); [discriminate |].
      destruct (Ascii.eqb y c) eqn:Ey; [discriminate |].
      destruct j; simpl.
      * intros [= ->]. now rewrite Ascii.eqb_refl in Ey.
      * now apply IH.
Qed.

Lemma rindex_None (c : ascii) (t : str) :
  rindex c t = None -> forall j, nth_error t j <> Some c.
Proof.
  induction t as [| x tl IH]; simpl; intros E j.
  - destruct j; discriminate.
  - destruct (rindex c tl); [discriminate |].
    destruct (Ascii.eqb x c) eqn:Ex; [discriminate |].
    destruct j; simpl.
    + intros [= ->]. now rewrite Ascii.eqb_refl in Ex.
    + now apply IH.
Qed.

(** What [rfind] answers on a window inside the text. *)
Lemma rfind_spec (t : str) (c : ascii) (a b : Z) :
  0 <= a <= b -> b <= len t ->
  (rfind t c a b = -1 /\ forall p, a <= p < b -> char_at t p <> Some c)
  \/ (a <= rfind t c a b < b
      /\ char_at t (rfind t c a b) = Some c
      /\ forall p, rfind t c a b < p < b -> char_at t p <> Some c).
Proof.
  intros Ha Hb. unfold rfind. rewrite adjust_index_id by lia.
  destruct (rindex c (slice t a b)) as [k |] eqn:E.
  - right. destruct (rindex_Some _ _ _ E) as [Hk Hlast].
    assert (Hkb : a + Z.of_nat k < b).
    { assert (Hn : (k < length (slice t a b))%nat)
        by (apply nth_error_Some; congruence).
      pose proof (slice_len t a b Ha Hb) as Hl. unfold len in Hl. lia. }
    split; [lia |]. split.
    + rewrite <- (char_at_slice t a b) by lia.
      replace (Z.to_nat (a + Z.of_nat k - a)) with k by lia. exact Hk.
    + intros p Hp. rewrite <- (char_at_slice t a b) by lia.
      apply Hlast. lia.
  - left. split; [reflexivity |]. intros p Hp.
    rewrite <- (char_at_slice t a b) by lia. now apply rindex_None.
Qed.

(** ** One iteration of the loop *)

Section Window.

Variables (text : str) (chunk_size start : Z).
Hypothesis Hsize : 1 <= chunk_size.
Hypothesis Hstart : 0 <= start < len text.

(** The cursor moves forward, and by no more than [chunk_size]. *)
Lemma window_end_bounds :
  start < window_end text chunk_size start
        <= Z.min (start + chunk_size) (len text).
Proof.
  unfold window_end.
  set (raw := Z.min (start + chunk_size) (len text)).
  destruct (raw <? len text) eqn:E; [| subst raw; lia].
  destruct (rfind text space start raw >? start) eqn:G; [| subst raw; lia].
  apply Z.gtb_lt in G. apply Z.ltb_lt in E.
  destruct (rfind_spec text space start raw) as [[H _] | [H _]];
    subst raw; lia.
Qed.

(** A window that reaches the end of the text is taken whole. *)
Lemma window_end_last :
  len text <= start + chunk_size ->
  window_end text chunk_size start = len text.
Proof.
  intros H. unfold window_end.
  replace (Z.min (start + chunk_size) (len text)) with (len text) by lia.
  now rewrite Z.ltb_irrefl.
Qed.

(** A window with no space after the cursor is cut at its raw edge. *)
Lemma window_end_raw :
  start + chunk_size < len text ->
  (forall p, start < p < start + chunk_size -> char_at text p <> Some space) ->
  window_end text chunk_size start = start + chunk_size.
Proof.
  intros H Hno. unfold window_end.
  replace (Z.min (start + chunk_size) (len text)) with (start + chunk_size)
    by lia.
  destruct (start + chunk_size <? len text) eqn:E;
    [| apply Z.ltb_ge in E; lia].
  destruct (rfind text space start (start + chunk_size) >? start) eqn:G;
    [| reflexivity].
  apply Z.gtb_lt in G.
  destruct (rfind_spec text space start (start + chunk_size))
    as [[Hr _] | [Hr [Hc _]]]; try lia.
  exfalso. apply (Hno _ (conj G (proj2 Hr))). exact Hc.
Qed.

(** A window that stops short of the end of the text and holds a space
    after the cursor is cut at the last such space. *)
Lemma window_end_space (p : Z) :
  start + chunk_size < len text ->
  start < p < start + chunk_size -> char_at text p = Some space ->
  p <= window_end text chunk_size start < start + chunk_size
  /\ char_at text (window_end text chunk_size start) = Some space
  /\ forall q, window_end text chunk_size start < q < start + chunk_size ->
               char_at text q <> Some space.
Proof.
  intros H Hp Hc. unfold window_end.
  replace (Z.min (start + chunk_size) (len text)) with (start + chunk_size)
    by lia.
  destruct (start + chunk_size <? len text) eqn:E;
    [| apply Z.ltb_ge in E; lia].
  destruct (rfind_spec text space start (start + chunk_size))
    as [[Hr Hno] | [Hr [Hrc Hlast]]]; try lia.
  - exfalso. apply (Hno p); [lia | exact Hc].
  - assert (Hpr : p <= rfind text space start (start + chunk_size)).
    { destruct (Z_le_gt_dec p (rfind text space start (start + chunk_size)))
        as [Hle | Hgt]; [exact Hle |].
      exfalso. apply (Hlast p); [lia | exact Hc]. }
    destruct (rfind text space start (start + chunk_size) >? start) eqn:G;
      [| rewrite Z.gtb_ltb in G; apply Z.ltb_ge in G; lia].
    repeat split; try lia; assumption.
Qed.

End Window.

(** ** Runs of the loop *)

(** The loop with enough fuel performs the run. *)
Lemma chunk_while_run (text : str) (chunk_size start : Z) (chunks : list str) :
  chunks_from text chunk_size start chunks ->
  forall fuel acc, (length chunks < fuel)%nat ->
    chunk_while fuel text chunk_size start acc = Some (acc ++ chunks).
Proof.
  induction 1 as [start Hend | start rest Hlt Hrun IH]; intros fuel acc Hfuel.
  - destruct fuel as [| fuel]; [lia |]. simpl.
    destruct (start <? len text) eqn:E; [apply Z.ltb_lt in E; lia |].
    now rewrite app_nil_r.
  - destruct fuel as [| fuel]; [simpl in Hfuel; lia |]. simpl.
    apply Z.ltb_lt in Hlt. rewrite Hlt.
    rewrite IH by (simpl in Hfuel; lia).
    now rewrite <- app_assoc.
Qed.

(** Whatever the loop answers is a run. *)
Lemma chunk_while_sound (fuel : nat) (text : str) (chunk_size start : Z)
    (acc out : list str) :
  chunk_while fuel text chunk_size start acc = Some out ->
  exists chunks, out = acc ++ chunks /\ chunks_from text chunk_size start chunks.
Proof.
  revert start acc. induction fuel as [| fuel IH]; intros start acc; simpl;
    [discriminate |].
  destruct (start <? len text) eqn:E.
  - intros H. destruct (IH _ _ H) as (chunks & -> & Hrun).
    exists (slice text start (window_end text chunk_size start) :: chunks).
    split; [now rewrite <- app_assoc |].
    apply chunks_step; [now apply Z.ltb_lt | exact Hrun].
  - intros [= <-]. exists []. split; [now rewrite app_nil_r |].
    apply chunks_done. now apply Z.ltb_ge.
Qed.

Lemma chunks_from_functional (text : str) (chunk_size start : Z)
    (xs ys : list str) :
  chunks_from text chunk_size start xs ->
  chunks_from text chunk_size start ys -> xs = ys.
Proof.
  intros Hx. revert ys.
  induction Hx as [start Hend | start rest Hlt Hrun IH]; intros ys Hy;
    inversion Hy; subst; try lia; [reflexivity |].
  f_equal. now apply IH.
Qed.

(** With [chunk_size >= 1] the loop has a run from every cursor, of at most
    one chunk per remaining character. *)
Lemma chunks_from_total (text : str) (chunk_size : Z) :
  1 <= chunk_size ->
  forall (n : nat) (start : Z),
    0 <= start -> len text - start <= Z.of_nat n ->
    exists chunks,
      chunks_from text chunk_size start chunks /\ (length chunks <= n)%nat.
Proof.
  intros Hsize. induction n as [| n IH]; intros start H0 Hn.
  - exists []. split; [apply chunks_done; lia | simpl; lia].
  - destruct (Z_lt_ge_dec start (len text)) as [Hlt | Hge].
    + pose proof (window_end_bounds text chunk_size start Hsize
                    (conj H0 Hlt)) as Hw.
      destruct (IH (window_end text chunk_size start)) as (rest & Hrun & Hlen);
        [lia | lia |].
      exists (slice text start (window_end text chunk_size start) :: rest).
      split; [now apply chunks_step | simpl; lia].
    + exists []. split; [apply chunks_done; lia | simpl; lia].
Qed.

(** The chunks of a run, in order, are the text from the cursor on, and
    each holds between one and [chunk_size] characters. *)
Lemma chunks_from_concat (text : str) (chunk_size start : Z)
    (chunks : list str) :
  1 <= chunk_size -> 0 <= start <= len text ->
  chunks_from text chunk_size start chunks ->
  concat chunks = slice text start (len text).
Proof.
  intros Hsize Hstart Hrun.
  induction Hrun as [start Hend | start rest Hlt Hrun IH].
  - simpl. replace start with (len text) by lia.
    symmetry. apply slice_empty. pose proof (len_nonneg text). lia.
  - pose proof (window_end_bounds text chunk_size start Hsize
                  (conj (proj1 Hstart) Hlt)) as Hw.
    simpl. rewrite IH by lia. apply slice_app; lia.
Qed.

Lemma chunks_from_sizes (text : str) (chunk_size start : Z)
    (chunks : list str) :
  1 <= chunk_size -> 0 <= start ->
  chunks_from text chunk_size start chunks ->
  Forall (fun c => 1 <= len c <= chunk_size
                   /\ exists a b, 0 <= a < b /\ b <= len text
                                  /\ c = slice text a b) chunks.
Proof.
  intros Hsize Hstart Hrun.
  induction Hrun as [start Hend | start rest Hlt Hrun IH]; constructor.
  - pose proof (window_end_bounds text chunk_size start Hsize
                  (conj Hstart Hlt)) as Hw.
    split.
    + rewrite slice_len by lia. lia.
    + exists start, (window_end text chunk_size start). repeat split; lia.
  - pose proof (window_end_bounds text chunk_size start Hsize
                  (conj Hstart Hlt)) as Hw.
    apply IH. lia.
Qed.

(** The run of the whole page. *)
Lemma page_run (text : str) (chunk_size : Z) :
  1 <= chunk_size ->
  exists chunks,
    chunks_from text chunk_size 0 chunks
    /\ (length chunks <= length text)%nat
    /\ forall fuel, (length text < fuel)%nat ->
         chunk_while fuel text chunk_size 0 [] = Some chunks.
Proof.
  intros Hsize.
  destruct (chunks_from_total text chunk_size Hsize (length text) 0)
    as (chunks & Hrun & Hlen); [lia | unfold len; lia |].
  exists chunks. repeat split; try assumption.
  intros fuel Hfuel.
  apply (chunk_while_run _ _ _ _ Hrun fuel []). lia.
Qed.

(** ** The chunks of a page *)

(** The chunking of a page finishes; its chunks are the text, and none is
    longer than the chunk size. *)
Lemma chunk_text_run (text : str) (chunk_size : Z) :
  1 <= chunk_size ->
  exists chunks,
    (forall fuel, (length text < fuel)%nat ->
       chunk_text fuel text chunk_size = Some chunks)
    /\ concat chunks = text
    /\ Forall (fun c => len c <= chunk_size) chunks.
Proof.
  intros Hsize. unfold chunk_text.
  destruct (len text <=? chunk_size) eqn:E.
  - exists [text]. split; [reflexivity |]. split; [simpl; apply app_nil_r |].
    constructor; [now apply Z.leb_le | constructor].
  - destruct (page_run text chunk_size Hsize) as (chunks & Hrun & _ & Hfuel).
    exists chunks. split; [exact Hfuel |]. split.
    + rewrite (chunks_from_concat text chunk_size 0 chunks Hsize); auto.
      * apply slice_all.
      * pose proof (len_nonneg text). lia.
    + eapply Forall_impl;
        [| apply (chunks_from_sizes text chunk_size 0 chunks Hsize); auto; lia].
      simpl. intros c [Hc _]. lia.
Qed.

(** C1.  For every page text and every chunk size of at least 1, the
    chunking algorithm finishes (any fuel above the length of the text is
    enough) and its chunks, concatenated in order without a separator, are
    exactly the text: no character is lost or duplicated. *)
Theorem chunks_reassemble (text : str) (chunk_size : Z) :
  1 <= chunk_size ->
  exists chunks,
    (forall fuel, (length text < fuel)%nat ->
       chunk_text fuel text chunk_size = Some chunks)
    /\ concat chunks = text.
Proof.
  intros Hsize.
  destruct (chunk_text_run text chunk_size Hsize) as (chunks & Hrun & Hcat & _).
  now exists chunks.
Qed.

Lemma chunks_reassemble_witness :
  1 <= 7 /\
  exists chunks,
    (forall fuel, (length (s "hello world foo") < fuel)%nat ->
       chunk_text fuel (s "hello world foo") 7 = Some chunks)
    /\ concat chunks = s "hello world foo".
Proof.
  split; [lia | apply (chunks_reassemble (s "hello world foo") 7); lia].
Defined.

(** C2.  For every page text and every chunk size of at least 1, every
    chunk holds at most [chunk_size] characters.  The loop never lets a
    chunk grow past the raw window, so the bound has no exception: a token
    longer than the window is cut, not kept whole. *)
Theorem chunks_bounded (text : str) (chunk_size : Z) :
  1 <= chunk_size ->
  exists chunks,
    (forall fuel, (length text < fuel)%nat ->
       chunk_text fuel text chunk_size = Some chunks)
    /\ Forall (fun c => len c <= chunk_size) chunks.
Proof.
  intros Hsize.
  destruct (chunk_text_run text chunk_size Hsize) as (chunks & Hrun & _ & Hb).
  now exists chunks.
Qed.

Lemma chunks_bounded_witness :
  1 <= 4 /\
  exists chunks,
    (forall fuel, (length (s "ab cdefghij kl") < fuel)%nat ->
       chunk_text fuel (s "ab cdefghij kl") 4 = Some chunks)
    /\ Forall (fun c => len c <= 4) chunks.
Proof.
  split; [lia | apply (chunks_bounded (s "ab cdefghij kl") 4); lia].
Defined.

(** C10.  For every text and every chunk size of at least 1 the chunking
    loop terminates: each iteration moves the cursor strictly forward (the
    raw window edge lies after the cursor, and a space is only taken as the
    edge when it lies after the cursor), so a fuel above the length of the
    text is never exhausted; and every chunk the loop appends is a
    non-empty substring [text[a:b]], [a < b].  The chunks of a non-empty
    page are therefore all non-empty. *)
Theorem chunk_loop_terminates (text : str) (chunk_size : Z) :
  1 <= chunk_size ->
  (forall start, 0 <= start < len text ->
     start < Z.min (start + chunk_size) (len text)
     /\ start < window_end text chunk_size start <= len text)
  /\ (exists chunks,
        (forall fuel, (length text < fuel)%nat ->
           chunk_while fuel text chunk_size 0 [] = Some chunks)
        /\ Forall (fun c => c <> []
                            /\ exists a b, 0 <= a < b /\ b <= len text
                                           /\ c = slice text a b) chunks)
  /\ (text <> [] ->
      exists chunks,
        (forall fuel, (length text < fuel)%nat ->
           chunk_text fuel text chunk_size = Some chunks)
        /\ Forall (fun c => c <> []) chunks).
Proof.
  intros Hsize.
  destruct (page_run text chunk_size Hsize) as (chunks & Hrun & _ & Hfuel).
  assert (Hall : Forall (fun c => c <> []
                                  /\ exists a b, 0 <= a < b /\ b <= len text
                                                 /\ c = slice text a b) chunks).
  { eapply Forall_impl;
      [| apply (chunks_from_sizes text chunk_size 0 chunks Hsize); auto; lia].
    simpl. intros c [Hlen Hsub]. split; [| exact Hsub].
    intros ->. change (len []) with 0 in Hlen. lia. }
  split; [| split].
  - intros start Hstart.
    pose proof (window_end_bounds text chunk_size start Hsize Hstart). lia.
  - now exists chunks.
  - intros Hne. unfold chunk_text.
    destruct (len text <=? chunk_size).
    + exists [text]. split; [reflexivity | now constructor].
    + exists chunks. split; [exact Hfuel |].
      eapply Forall_impl; [| exact Hall]. now intros c [Hc _].
Qed.

Lemma chunk_loop_terminates_witness :
  1 <= 2 /\
  exists chunks,
    (forall fuel, (length (s "aaaaa") < fuel)%nat ->
       chunk_while fuel (s "aaaaa") 2 0 [] = Some chunks)
    /\ Forall (fun c => c <> []
                        /\ exists a b, 0 <= a < b /\ b <= len (s "aaaaa")
                                       /\ c = slice (s "aaaaa") a b) chunks.
Proof.
  split; [lia | apply (chunk_loop_terminates (s "aaaaa") 2); lia].
Defined.

(** The bound on the chunk size is needed: with a chunk size of 0 the
    cursor never moves, and no fuel is enough. *)
Remark chunk_loop_spins_at_zero (fuel : nat) (text : str) (acc : list str) :
  text <> [] -> chunk_while fuel text 0 0 acc = None.
Proof.
  intros Hne. assert (Hlen : 0 < len text).
  { destruct text; [contradiction | unfold len; simpl; lia]. }
  assert (Hw : window_end text 0 0 = 0).
  { unfold window_end. replace (Z.min (0 + 0) (len text)) with 0 by lia.
    apply Z.ltb_lt in Hlen. rewrite Hlen.
    destruct (rfind text space 0 0 >? 0) eqn:G; [| reflexivity].
    apply Z.gtb_lt in G.
    destruct (rfind_spec text space 0 0) as [[H _] | [H _]]; lia. }
  revert acc. induction fuel as [| fuel IH]; intros acc; [reflexivity |].
  simpl. apply Z.ltb_lt in Hlen. rewrite Hlen, Hw. apply IH.
Qed.

(** ** Where the chunks are cut *)

(** In a run, the chunk that follows the chunks [done] is the window of the
    cursor reached after [done]. *)
Lemma chunks_from_nth (text : str) (chunk_size : Z) :
  1 <= chunk_size ->
  forall (done : list str) (start : Z) (c : str) (rest : list str),
    0 <= start ->
    chunks_from text chunk_size start (done ++ c :: rest) ->
    let cursor := cursor_after start done in
    0 <= cursor < len text
    /\ c = slice text cursor (window_end text chunk_size cursor)
    /\ chunks_from text chunk_size (window_end text chunk_size cursor) rest.
Proof.
  intros Hsize. induction done as [| d done IH]; intros start c rest H0 Hrun.
  - simpl in Hrun. inversion Hrun; subst.
    unfold cursor_after. simpl. change (len []) with 0.
    rewrite !Z.add_0_r. repeat split; auto; lia.
  - simpl in Hrun. inversion Hrun as [| ? ? Hlt Hrest]; subst.
    pose proof (window_end_bounds text chunk_size start Hsize
                  (conj H0 Hlt)) as Hw.
    destruct (IH (window_end text chunk_size start) c rest) as (Hc & Hs & Hr);
      [lia | exact Hrest |].
    assert (Heq : cursor_after start
                    (slice text start (window_end text chunk_size start) :: done)
                  = cursor_after (window_end text chunk_size start) done).
    { unfold cursor_after. simpl. rewrite len_app, slice_len; lia. }
    simpl. rewrite Heq. auto.
Qed.

Lemma char_at_end (text : str) : char_at text (len text) = None.
Proof.
  unfold char_at. pose proof (len_nonneg text).
  destruct (len text <? 0) eqn:E; [reflexivity |].
  apply nth_error_None. unfold len. lia.
Qed.

Lemma not_inside_token (text : str) (p : Z) :
  p = len text \/ char_at text p = Some space -> ~ inside_token text p.
Proof.
  intros [-> | Hsp] (c & d & _ & Hd & _ & Hws).
  - rewrite char_at_end in Hd. discriminate.
  - rewrite Hsp in Hd. injection Hd as <-. discriminate.
Qed.

(** C4, as the loop does it: only the space character U+0020 is looked
    for.  For every page text and every chunk size of at least 1, whenever
    a space exists in the window of the cursor, strictly after the cursor,
    the chunk is cut on a space or at the end of the text, so the cut does
    not fall strictly inside a whitespace-delimited token. *)
Theorem cut_on_space_in_window (text : str) (chunk_size : Z) :
  1 <= chunk_size ->
  exists chunks,
    (forall fuel, (length text < fuel)%nat ->
       chunk_text fuel text chunk_size = Some chunks)
    /\ forall done c rest,
         chunks = done ++ c :: rest ->
         let cursor := cursor_after 0 done in
         let cut := cursor + len c in
         (exists p, cursor < p < cursor + chunk_size
                    /\ char_at text p = Some space) ->
         (cut = len text \/ char_at text cut = Some space)
         /\ ~ inside_token text cut.
Proof.
  intros Hsize. unfold chunk_text.
  destruct (len text <=? chunk_size) eqn:E.
  - exists [text]. split; [reflexivity |].
    intros done c rest Heq _.
    set (cursor := cursor_after 0 done). set (cut := cursor + len c).
    assert (Hcut : cut = len text).
    { destruct done as [| d [| d' done]]; simpl in Heq.
      - injection Heq as <- <-. subst cut cursor. unfold cursor_after.
        simpl. change (len []) with 0. lia.
      - discriminate.
      - discriminate. }
    split; [now left | apply not_inside_token; now left].
  - destruct (page_run text chunk_size Hsize) as (chunks & Hrun & _ & Hfuel).
    exists chunks. split; [exact Hfuel |].
    intros done c rest -> (p & Hp & Hsp).
    set (cursor := cursor_after 0 done) in *. set (cut := cursor + len c).
    destruct (chunks_from_nth text chunk_size Hsize done 0 c rest
                (Z.le_refl 0) Hrun) as (Hcur & Hc & _).
    fold cursor in Hcur, Hc.
    pose proof (window_end_bounds text chunk_size cursor Hsize Hcur) as Hw.
    assert (Hcut : cut = window_end text chunk_size cursor).
    { subst cut. rewrite Hc at 1. rewrite slice_len; lia. }
    assert (Hor : cut = len text \/ char_at text cut = Some space).
    { rewrite Hcut.
      destruct (Z_lt_ge_dec (cursor + chunk_size) (len text)) as [Hlt | Hge].
      - right.
        now destruct (window_end_space text chunk_size cursor Hsize Hcur
                        p Hlt Hp Hsp)
          as (_ & Hs & _).
      - left. apply window_end_last; lia. }
    split; [exact Hor | now apply not_inside_token].
Qed.

Lemma cut_on_space_in_window_witness :
  1 <= 7 /\
  exists chunks,
    (forall fuel, (length (s "hello world foo") < fuel)%nat ->
       chunk_text fuel (s "hello world foo") 7 = Some chunks)
    /\ forall done c rest,
         chunks = done ++ c :: rest ->
         let cursor := cursor_after 0 done in
         let cut := cursor + len c in
         (exists p, cursor < p < cursor + 7
                    /\ char_at (s "hello world foo") p = Some space) ->
         (cut = len (s "hello world foo")
          \/ char_at (s "hello world foo") cut = Some space)
         /\ ~ inside_token (s "hello world foo") cut.
Proof.
  split; [lia | apply (cut_on_space_in_window (s "hello world foo") 7); lia].
Defined.

(** C4 as the specification words it -- a whitespace character of any kind
    in the window -- fails: on "a\nbcd" with a chunk size of 3 the newline
    at offset 1 lies in the window (0, 3), yet the first chunk is "a\nb"
    and the cut at offset 3 falls inside the token "bcd". *)
Lemma newline_in_window_is_ignored :
  ~ (forall text chunk_size fuel chunks done c rest,
       1 <= chunk_size ->
       chunk_text fuel text chunk_size = Some chunks ->
       chunks = done ++ c :: rest ->
       (exists p w, cursor_after 0 done < p < cursor_after 0 done + chunk_size
                    /\ char_at text p = Some w /\ isspace w = true) ->
       ~ inside_token text (cursor_after 0 done + len c)).
Proof.
  intros H.
  apply (H ("a" :: newline :: s "bcd")%char 3 6%nat
           [("a" :: newline :: s "b")%char; s "cd"]
           [] ("a" :: newline :: s "b")%char [s "cd"]).
  - lia.
  - reflexivity.
  - reflexivity.
  - exists 1, newline. repeat split; reflexivity.
  - exists "b"%char, "c"%char. repeat split; reflexivity.
Qed.

(** ** A token longer than the window *)

Lemma slice_clamp (t : str) (a b : Z) :
  0 <= a <= len t -> len t <= b -> slice t a b = slice t a (len t).
Proof.
  intros Ha Hb. unfold slice, adjust_index.
  pose proof (len_nonneg t).
  destruct (b <? 0) eqn:E; [apply Z.ltb_lt in E; lia |].
  destruct (len t <? 0) eqn:E'; [apply Z.ltb_lt in E'; lia |].
  now replace (Z.min b (len t)) with (Z.min (len t) (len t)) by lia.
Qed.

Lemma raw_slices_done (text : str) (chunk_size start : Z) :
  1 <= chunk_size -> len text <= start <= len text ->
  raw_slices text chunk_size start = [].
Proof.
  intros Hsize Hstart. unfold raw_slices.
  replace (len text - start + chunk_size - 1) with (chunk_size - 1) by lia.
  rewrite Z.div_small by lia. reflexivity.
Qed.

Lemma raw_slices_step (text : str) (chunk_size start : Z) :
  1 <= chunk_size -> 0 <= start < len text ->
  raw_slices text chunk_size start
  = slice text start (start + chunk_size)
    :: raw_slices text chunk_size (start + chunk_size).
Proof.
  intros Hsize Hstart. unfold raw_slices.
  replace (len text - start + chunk_size - 1)
    with (len text - start - 1 + 1 * chunk_size) by lia.
  rewrite Z.div_add by lia.
  assert (Hq : 0 <= (len text - start - 1) / chunk_size)
    by (apply Z.div_pos; lia).
  replace (Z.to_nat ((len text - start - 1) / chunk_size + 1))
    with (S (Z.to_nat ((len text - start - 1) / chunk_size))) by lia.
  replace (len text - (start + chunk_size) + chunk_size - 1)
    with (len text - start - 1) by lia.
  cbn [seq map]. f_equal.
  - f_equal; lia.
  - rewrite <- seq_shift, map_map. apply map_ext. intros k.
    rewrite Nat2Z.inj_succ. f_equal; ring.
Qed.

Lemma raw_slices_past_end (text : str) (chunk_size start : Z) :
  1 <= chunk_size -> 0 <= start < len text -> len text <= start + chunk_size ->
  raw_slices text chunk_size start = [slice text start (len text)].
Proof.
  intros Hsize Hstart Hend. unfold raw_slices.
  replace (len text - start + chunk_size - 1)
    with (len text - start - 1 + 1 * chunk_size) by lia.
  rewrite Z.div_add, Z.div_small by lia. simpl.
  f_equal. rewrite Z.add_0_r. apply slice_clamp; lia.
Qed.

(** On a text without a space the loop cuts at every raw window edge. *)
Lemma chunks_from_raw (text : str) (chunk_size : Z) :
  1 <= chunk_size ->
  (forall p, char_at text p <> Some space) ->
  forall (n : nat) (start : Z),
    0 <= start <= len text -> len text - start <= Z.of_nat n ->
    chunks_from text chunk_size start (raw_slices text chunk_size start).
Proof.
  intros Hsize Hno. induction n as [| n IH]; intros start Hstart Hn.
  - rewrite raw_slices_done by lia. apply chunks_done. lia.
  - destruct (Z_lt_ge_dec start (len text)) as [Hlt | Hge].
    + destruct (Z_lt_ge_dec (start + chunk_size) (len text)) as [Hin | Hout].
      * rewrite raw_slices_step by lia.
        rewrite <- (window_end_raw text chunk_size start) at 1 2 by (auto; lia).
        apply chunks_step; [exact Hlt |].
        rewrite window_end_raw by (auto; lia). apply IH; lia.
      * rewrite raw_slices_past_end by lia.
        rewrite <- (window_end_last text chunk_size start) at 1 by lia.
        apply chunks_step; [exact Hlt |].
        rewrite window_end_last by lia. apply chunks_done. lia.
    + rewrite raw_slices_done by lia. apply chunks_done. lia.
Qed.

Lemma token_has_no_space (tok : str) :
  forallb (fun c => negb (isspace c)) tok = true ->
  forall p, char_at tok p <> Some space.
Proof.
  intros Hall p Hp. unfold char_at in Hp.
  destruct (p <? 0); [discriminate |].
  apply nth_error_In in Hp.
  rewrite forallb_forall in Hall. specialize (Hall _ Hp). discriminate.
Qed.

(** C3, as the loop does it.  A token longer than the chunk size is not
    kept whole: it is cut at the raw window edge.  Every chunk holds at
    most [chunk_size] characters, so the token is none of the chunks; when
    the page is that one token, the chunks are [text[0:n]], [text[n:2n]],
    ... for [n = chunk_size]; and no character is lost. *)
Theorem long_token_is_cut (text tok : str) (chunk_size : Z) :
  1 <= chunk_size -> token_of text tok -> chunk_size < len tok ->
  exists chunks,
    (forall fuel, (length text < fuel)%nat ->
       chunk_text fuel text chunk_size = Some chunks)
    /\ ~ In tok chunks
    /\ Forall (fun c => len c <= chunk_size) chunks
    /\ concat chunks = text
    /\ (tok = text -> chunks = raw_slices text chunk_size 0).
Proof.
  intros Hsize (Hne & Hws & before & after & Htext & _ & _) Hlong.
  assert (Hlen : chunk_size < len text).
  { rewrite Htext, !len_app.
    pose proof (len_nonneg before). pose proof (len_nonneg after). lia. }
  destruct (page_run text chunk_size Hsize) as (chunks & Hrun & _ & Hfuel).
  assert (Hsizes : Forall (fun c => len c <= chunk_size) chunks).
  { eapply Forall_impl;
      [| apply (chunks_from_sizes text chunk_size 0 chunks Hsize); auto; lia].
    simpl. intros c [Hc _]. lia. }
  exists chunks. repeat split.
  - intros fuel Hf. unfold chunk_text.
    destruct (len text <=? chunk_size) eqn:E; [apply Z.leb_le in E; lia |].
    now apply Hfuel.
  - intros Hin. rewrite Forall_forall in Hsizes.
    specialize (Hsizes _ Hin). lia.
  - exact Hsizes.
  - rewrite (chunks_from_concat text chunk_size 0 chunks Hsize); auto.
    + apply slice_all.
    + pose proof (len_nonneg text). lia.
  - intros ->.
    apply (chunks_from_functional text chunk_size 0); [exact Hrun |].
    apply (chunks_from_raw text chunk_size Hsize (token_has_no_space _ Hws)
             (length text)); unfold len; lia.
Qed.

Lemma long_token_is_cut_witness :
  exists chunks,
    (forall fuel, (length (s "aaaaa") < fuel)%nat ->
       chunk_text fuel (s "aaaaa") 2 = Some chunks)
    /\ ~ In (s "aaaaa") chunks
    /\ Forall (fun c => len c <= 2) chunks
    /\ concat chunks = s "aaaaa"
    /\ (s "aaaaa" = s "aaaaa" -> chunks = raw_slices (s "aaaaa") 2 0).
Proof.
  apply (long_token_is_cut (s "aaaaa") (s "aaaaa") 2).
  - lia.
  - split; [discriminate |]. split; [reflexivity |].
    exists [], []. repeat split; reflexivity.
  - reflexivity.
Defined.

(** C3 as the specification words it fails: the token "aaaaa" with a chunk
    size of 2 is emitted as "aa", "aa", "a", not as one oversized chunk. *)
Lemma long_token_is_not_kept_whole :
  ~ (forall text tok chunk_size fuel chunks,
       1 <= chunk_size -> token_of text tok -> chunk_size < len tok ->
       chunk_text fuel text chunk_size = Some chunks ->
       In tok chunks).
Proof.
  intros H.
  assert (Hin : In (s "aaaaa") [s "aa"; s "aa"; s "a"]).
  { apply (H (s "aaaaa") (s "aaaaa") 2 6%nat).
    - lia.
    - split; [discriminate |]. split; [reflexivity |].
      exists [], []. repeat split; reflexivity.
    - reflexivity.
    - reflexivity. }
  simpl in Hin. destruct Hin as [Hin | [Hin | [Hin | []]]]; discriminate.
Qed.

(** ** Two chunks, or more *)

(** A text longer than one window but not longer than two: the first cut
    decides whether the second window reaches the end. *)
Lemma second_window (text : str) (chunk_size : Z) :
  1 <= chunk_size -> chunk_size < len text ->
  exists rest,
    (forall fuel, (length text < fuel)%nat ->
       chunk_text fuel text chunk_size
       = Some (slice text 0 (window_end text chunk_size 0) :: rest))
    /\ (len text <= window_end text chunk_size 0 + chunk_size ->
        rest = [slice text (window_end text chunk_size 0) (len text)])
    /\ (window_end text chunk_size 0 + chunk_size < len text ->
        (2 <= length rest)%nat).
Proof.
  intros Hsize Hlen.
  destruct (page_run text chunk_size Hsize) as (chunks & Hrun & _ & Hfuel).
  assert (H0 : 0 <= 0 < len text) by lia.
  pose proof (window_end_bounds text chunk_size 0 Hsize H0) as Hw.
  set (cut := window_end text chunk_size 0) in *.
  inversion Hrun as [| ? rest _ Hrest]; subst; [lia |]. fold cut in Hrest.
  assert (Hcut : 0 <= cut < len text) by lia.
  pose proof (window_end_bounds text chunk_size cut Hsize Hcut) as Hw2.
  exists rest. repeat split.
  - intros fuel Hf. unfold chunk_text.
    destruct (len text <=? chunk_size) eqn:E; [apply Z.leb_le in E; lia |].
    now apply Hfuel.
  - intros Hreach.
    apply (chunks_from_functional text chunk_size cut); [exact Hrest |].
    rewrite <- (window_end_last text chunk_size cut) at 1 by lia.
    apply chunks_step; [lia |].
    rewrite window_end_last by lia. apply chunks_done. lia.
  - intros Hshort.
    inversion Hrest as [| ? rest2 _ Hrest2]; subst; [lia |].
    inversion Hrest2; subst; [lia | simpl; lia].
Qed.

(** C9, as the loop does it.  A page of 5000 characters with a chunk size
    of 3500: the first chunk ends at the last space at an offset strictly
    between 0 and 3500, or at offset 3500 when there is none; there are
    exactly two chunks when that offset is at least 1500 and at least three
    otherwise. *)
Theorem page_of_5000_chars (text : str) :
  len text = 5000 ->
  exists first rest,
    (forall fuel, (5000 < fuel)%nat ->
       chunk_text fuel text 3500 = Some (first :: rest))
    /\ first = slice text 0 (len first)
    /\ 0 < len first <= 3500
    /\ ((exists p, 0 < p < 3500 /\ char_at text p = Some space) ->
        0 < len first < 3500
        /\ char_at text (len first) = Some space
        /\ forall q, len first < q < 3500 -> char_at text q <> Some space)
    /\ ((forall p, 0 < p < 3500 -> char_at text p <> Some space) ->
        len first = 3500)
    /\ (1500 <= len first -> rest = [slice text (len first) 5000])
    /\ (len first < 1500 -> (2 <= length rest)%nat).
Proof.
  intros Hlen.
  assert (Hsize : 1 <= 3500) by lia.
  assert (H0 : 0 <= 0 < len text) by lia.
  destruct (second_window text 3500) as (rest & Hfuel & Htwo & Hmore);
    [lia | lia |].
  pose proof (window_end_bounds text 3500 0 Hsize H0) as Hw.
  set (cut := window_end text 3500 0) in *.
  assert (Hfirst : len (slice text 0 cut) = cut)
    by (rewrite slice_len; lia).
  exists (slice text 0 cut), rest. rewrite Hfirst.
  split; [| split; [| split; [| split; [| split; [| split]]]]].
  - intros fuel Hf. apply Hfuel. unfold len in Hlen. lia.
  - reflexivity.
  - lia.
  - intros (p & Hp & Hsp).
    destruct (window_end_space text 3500 0 Hsize H0 p)
      as (Hin & Hs & Hl); [lia | lia | exact Hsp |].
    fold cut in Hin, Hs, Hl. split; [lia |]. split; [exact Hs |].
    intros q Hq. apply Hl. lia.
  - intros Hno. apply (window_end_raw text 3500 0 Hsize H0); [lia |].
    intros p Hp. apply Hno. lia.
  - intros Hge. rewrite <- Hlen. apply Htwo. lia.
  - intros Hlt. apply Hmore. lia.
Qed.

Lemma page_of_5000_chars_witness :
  len page_space_2000 = 5000 /\
  exists first rest,
    (forall fuel, (5000 < fuel)%nat ->
       chunk_text fuel page_space_2000 3500 = Some (first :: rest))
    /\ first = slice page_space_2000 0 (len first)
    /\ 0 < len first <= 3500
    /\ ((exists p, 0 < p < 3500 /\ char_at page_space_2000 p = Some space) ->
        0 < len first < 3500
        /\ char_at page_space_2000 (len first) = Some space
        /\ forall q, len first < q < 3500 ->
                     char_at page_space_2000 q <> Some space)
    /\ ((forall p, 0 < p < 3500 -> char_at page_space_2000 p <> Some space) ->
        len first = 3500)
    /\ (1500 <= len first -> rest = [slice page_space_2000 (len first) 5000])
    /\ (len first < 1500 -> (2 <= length rest)%nat).
Proof.
  split; [vm_compute; reflexivity |].
  apply (page_of_5000_chars page_space_2000). vm_compute. reflexivity.
Defined.

(** C9 as the specification words it fails: a page of 5000 characters whose
    only space is at offset 1 gives three chunks, of 1, 3500 and 1499
    characters. *)
Lemma page_of_5000_chars_in_three_chunks :
  ~ (forall text fuel chunks,
       len text = 5000 ->
       chunk_text fuel text 3500 = Some chunks ->
       length chunks = 2%nat).
Proof.
  intros H.
  specialize (H page_space_1 (S (length page_space_1))
                [ ["a"%char]; space :: repeat "b"%char 3499;
                  repeat "b"%char 1499 ]).
  discriminate H; vm_compute; reflexivity.
Qed.

(** ** Cleaning keeps the ink *)

Lemma has_ink_cons (c : ascii) (t : str) :
  has_ink (c :: t) = negb (isspace c) || has_ink t.
Proof. reflexivity. Qed.

Lemma has_ink_app (t u : str) : has_ink (t ++ u) = has_ink t || has_ink u.
Proof. unfold has_ink. apply existsb_app. Qed.

Lemma lstrip_no_ink (t : str) : lstrip t = [] <-> has_ink t = false.
Proof.
  induction t as [| c tl IH]; [simpl; tauto |].
  rewrite has_ink_cons. simpl.
  destruct (isspace c); simpl; [exact IH |]. split; discriminate.
Qed.

Lemma has_ink_rev (t : str) : has_ink (rev t) = has_ink t.
Proof.
  induction t as [| c tl IH]; [reflexivity |].
  simpl rev. rewrite has_ink_app, IH, !has_ink_cons.
  change (has_ink []) with false. rewrite orb_false_r. apply orb_comm.
Qed.

Lemma has_ink_lstrip (t : str) : has_ink (lstrip t) = has_ink t.
Proof.
  induction t as [| c tl IH]; [reflexivity |]. cbn [lstrip].
  destruct (isspace c) eqn:E; [| reflexivity].
  rewrite has_ink_cons, E. exact IH.
Qed.

Lemma has_ink_strip (t : str) : has_ink (strip t) = has_ink t.
Proof.
  unfold strip, rstrip.
  now rewrite has_ink_rev, has_ink_lstrip, has_ink_rev, has_ink_lstrip.
Qed.

Lemma lstrip_head (t : str) (c : ascii) (tl : str) :
  lstrip t = c :: tl -> isspace c = false.
Proof.
  induction t as [| x u IH]; simpl; [discriminate |].
  destruct (isspace x) eqn:E; [exact IH |]. now intros [= <- _].
Qed.

Lemma strip_no_ink (t : str) : strip t = [] <-> has_ink t = false.
Proof.
  rewrite <- has_ink_strip. split; [now intros -> |].
  unfold strip, rstrip.
  destruct (lstrip (rev (lstrip t))) as [| c tl] eqn:E; [reflexivity |].
  rewrite has_ink_rev, has_ink_cons, (lstrip_head _ _ _ E). discriminate.
Qed.

Lemma truthy_strip (t : str) : truthy (strip t) = has_ink t.
Proof.
  destruct (has_ink t) eqn:E.
  - destruct (strip t) eqn:Es; [| reflexivity].
    apply strip_no_ink in Es. congruence.
  - apply strip_no_ink in E. now rewrite E.
Qed.

(** What [\s*\n+] consumes is whitespace. *)
Lemma newline_is_space (c : ascii) :
  Ascii.eqb c newline = true -> isspace c = true.
Proof. intros H. apply Ascii.eqb_eq in H. now subst c. Qed.

Lemma newline_run_no_ink (t : str) :
  has_ink (firstn (newline_run t) t) = false.
Proof.
  induction t as [| c tl IH]; [reflexivity |]. simpl.
  destruct (Ascii.eqb c newline) eqn:E; [| reflexivity].
  simpl firstn. now rewrite has_ink_cons, (newline_is_space _ E).
Qed.

Lemma match_ws_nl_no_ink (t : str) (k : nat) :
  match_ws_nl t = Some k -> has_ink (firstn k t) = false.
Proof.
  revert k. induction t as [| c tl IH]; intros k; simpl; [discriminate |].
  destruct (isspace c) eqn:Ec.
  - destruct (match_ws_nl tl) as [k' |].
    + intros [= <-]. simpl firstn. rewrite has_ink_cons, Ec. now apply IH.
    + destruct (Ascii.eqb c newline); [| discriminate].
      intros [= <-]. simpl firstn. rewrite has_ink_cons, Ec.
      apply newline_run_no_ink.
  - destruct (Ascii.eqb c newline) eqn:En; [| discriminate].
    apply newline_is_space in En. congruence.
Qed.

Lemma has_ink_sub_blank_lines (t : str) (skip : nat) :
  has_ink (firstn skip t) = false ->
  has_ink (sub_blank_lines skip t) = has_ink (skipn skip t).
Proof.
  revert skip. induction t as [| c tl IH]; intros skip Hskip.
  - now destruct skip.
  - destruct skip as [| k].
    + cbn [sub_blank_lines skipn].
      destruct (match_blank_lines (c :: tl)) as [[| k] |] eqn:Em.
      * rewrite !has_ink_cons. f_equal. now apply (IH O).
      * simpl in Em. destruct (Ascii.eqb c newline) eqn:En; [| discriminate].
        destruct (match_ws_nl tl) as [k' |] eqn:Ew; [| discriminate].
        injection Em as <-.
        pose proof (match_ws_nl_no_ink _ _ Ew) as Hk.
        rewrite !has_ink_cons, (newline_is_space _ En). simpl.
        rewrite (IH k' Hk).
        rewrite <- (firstn_skipn k' tl) at 2.
        now rewrite has_ink_app, Hk.
      * rewrite !has_ink_cons. f_equal. now apply (IH O).
    + cbn [sub_blank_lines skipn]. apply IH.
      simpl firstn in Hskip. rewrite has_ink_cons in Hskip.
      now apply orb_false_iff in Hskip.
Qed.

Lemma has_ink_remove_char (c : ascii) (t : str) :
  isspace c = true -> has_ink (remove_char c t) = has_ink t.
Proof.
  intros Hc. unfold remove_char.
  induction t as [| x tl IH]; [reflexivity |]. cbn [filter].
  destruct (Ascii.eqb x c) eqn:E; cbn [negb].
  - apply Ascii.eqb_eq in E. subst x. now rewrite has_ink_cons, Hc.
  - now rewrite !has_ink_cons, IH.
Qed.

Lemma has_ink_clean_text (t : str) : has_ink (clean_text t) = has_ink t.
Proof.
  unfold clean_text.
  rewrite has_ink_strip, has_ink_remove_char by reflexivity.
  now rewrite (has_ink_sub_blank_lines t O).
Qed.

(** A cleaned text is empty exactly when the text holds only whitespace. *)
Lemma clean_text_empty (t : str) : clean_text t = [] <-> has_ink t = false.
Proof.
  rewrite <- has_ink_clean_text. split; [now intros -> |].
  unfold clean_text. rewrite has_ink_strip. apply strip_no_ink.
Qed.

(** ** Extraction *)

Lemma in_range (a b i : Z) : In i (range a b) <-> a <= i < b.
Proof.
  unfold range. rewrite in_map_iff. split.
  - intros (k & <- & Hk). apply in_seq in Hk. lia.
  - intros Hi. exists (Z.to_nat (i - a)). split; [lia |].
    apply in_seq. lia.
Qed.

Lemma load_page_in_range (doc : Document) (i : Z) :
  0 <= i < page_count doc ->
  exists page, load_page doc i = Ok page
               /\ nth_error doc (Z.to_nat i) = Some page.
Proof.
  intros Hi. unfold load_page.
  destruct (page_count doc <=? i) eqn:E; [apply Z.leb_le in E; lia |].
  rewrite Z.mod_small by lia.
  destruct (nth_error doc (Z.to_nat i)) as [page |] eqn:En.
  - now exists page.
  - apply nth_error_None in En. unfold page_count in Hi. lia.
Qed.

(** The loop over pages inside the document never raises: it appends the
    entry of every page that holds ink, and logs one line per page. *)
Lemma extract_loop_spec (doc : Document) (pages : list Z) :
  (forall i, In i pages -> 0 <= i < page_count doc) ->
  forall all_text logs,
  exists lines,
    extract_loop doc pages all_text logs
    = (logs ++ lines, Ok (all_text ++ flat_map (page_entry doc) pages))
    /\ length lines = length pages.
Proof.
  induction pages as [| i rest IH]; intros Hin all_text logs.
  - exists []. now rewrite !app_nil_r.
  - destruct (load_page_in_range doc i) as (page & Hload & Hnth);
      [apply Hin; now left |].
    cbn [extract_loop flat_map]. rewrite Hload, truthy_strip.
    unfold page_entry at 1. rewrite Hnth.
    assert (Hrest : forall j, In j rest -> 0 <= j < page_count doc)
      by (intros j Hj; apply Hin; now right).
    destruct (has_ink page).
    + destruct (IH Hrest (all_text ++ [(i + 1, clean_text (strip page))])
                  (logs ++ [PageChars (i + 1) (len (clean_text (strip page)))]))
        as (lines & -> & Hlen).
      exists (PageChars (i + 1) (len (clean_text (strip page))) :: lines).
      rewrite <- !app_assoc. simpl. now rewrite Hlen.
    + destruct (IH Hrest all_text (logs ++ [PageSkipped (i + 1)]))
        as (lines & -> & Hlen).
      exists (PageSkipped (i + 1) :: lines).
      rewrite <- !app_assoc. simpl. now rewrite Hlen.
Qed.

(** The pages that a request covers, counted from 0. *)
Lemma extract_text_from_pdf_spec (fs : FileSystem) (path : str)
    (doc : Document) (start_page end_page : option Z) :
  fs path = Some doc ->
  exists logs,
    extract_text_from_pdf fs path start_page end_page
    = (logs,
       Ok (flat_map (page_entry doc)
             (range (match start_page with None => 0 | Some p => Z.max 0 p end)
                    (match end_page with
                     | None => page_count doc - 1
                     | Some p => Z.min (page_count doc - 1) p
                     end + 1)))).
Proof.
  intros Hfs. unfold extract_text_from_pdf, fitz_open. rewrite Hfs.
  match goal with
  | |- context [extract_loop doc ?idx [] []] =>
      destruct (extract_loop_spec doc idx) with (all_text := @nil (Z * str))
        (logs := @nil LogMsg) as (lines & -> & _)
  end.
  - intros i Hi. apply in_range in Hi.
    destruct start_page, end_page; lia.
  - now exists lines.
Qed.

Lemma in_page_entry (doc : Document) (i n : Z) (t : str) :
  In (n, t) (page_entry doc i) ->
  exists raw, nth_error doc (Z.to_nat i) = Some raw /\ has_ink raw = true
              /\ n = i + 1 /\ t = clean_text (strip raw).
Proof.
  unfold page_entry.
  destruct (nth_error doc (Z.to_nat i)) as [raw |]; [| intros []].
  destruct (has_ink raw) eqn:E; [| intros []].
  intros [[= <- <-] | []]. now exists raw.
Qed.

(** C6.  For every document and every page range the extraction raises
    nothing, and its result is, in page order, the entry of every page of
    the range that holds ink: a page whose cleaned, trimmed text is empty
    never appears in it.  Pages 1-3 of the document "Hello world", "",
    "More text" give the entries of pages 1 and 3. *)
Theorem blank_pages_are_skipped (fs : FileSystem) (path : str)
    (doc : Document) (start_page end_page : option Z) :
  fs path = Some doc ->
  exists logs pages,
    extract_text_from_pdf fs path start_page end_page = (logs, Ok pages)
    /\ pages
       = flat_map (page_entry doc)
           (range (match start_page with None => 0 | Some p => Z.max 0 p end)
                  (match end_page with
                   | None => page_count doc - 1
                   | Some p => Z.min (page_count doc - 1) p
                   end + 1))
    /\ (forall n t, In (n, t) pages ->
          t <> [] /\ 1 <= n
          /\ exists raw, nth_error doc (Z.to_nat (n - 1)) = Some raw
                         /\ t = clean_text (strip raw))
    /\ (forall i raw, nth_error doc i = Some raw ->
          clean_text raw = [] \/ clean_text (strip raw) = [] ->
          ~ In (Z.of_nat i + 1) (map fst pages))
    /\ extract_text_from_pdf (one_file (s "book.pdf") three_pages)
         (s "book.pdf") (Some 0) (Some 2)
       = ([PageChars 1 11; PageSkipped 2; PageChars 3 9],
          Ok [(1, s "Hello world"); (3, s "More text")]).
Proof.
  intros Hfs.
  destruct (extract_text_from_pdf_spec fs path doc start_page end_page Hfs)
    as (logs & Hrun).
  eexists logs, _. split; [exact Hrun |]. split; [reflexivity |].
  assert (Hentry : forall n t,
    In (n, t)
       (flat_map (page_entry doc)
          (range (match start_page with None => 0 | Some p => Z.max 0 p end)
                 (match end_page with
                  | None => page_count doc - 1
                  | Some p => Z.min (page_count doc - 1) p
                  end + 1))) ->
    exists raw, nth_error doc (Z.to_nat (n - 1)) = Some raw
                /\ has_ink raw = true /\ 1 <= n
                /\ t = clean_text (strip raw)).
  { intros n t Hin. apply in_flat_map in Hin. destruct Hin as (i & Hi & Hin).
    apply in_range in Hi.
    destruct (in_page_entry _ _ _ _ Hin) as (raw & Hnth & Hink & -> & ->).
    exists raw. replace (i + 1 - 1) with i by lia.
    repeat split; auto. destruct start_page; lia. }
  split; [| split].
  - intros n t Hin.
    destruct (Hentry n t Hin) as (raw & Hnth & Hink & Hn & ->).
    repeat split; [| exact Hn | now exists raw].
    intros Hempty. apply clean_text_empty in Hempty.
    rewrite has_ink_strip in Hempty. congruence.
  - intros i raw Hnth Hempty Hin.
    apply in_map_iff in Hin. destruct Hin as ([n t] & Hn & Hin).
    simpl in Hn. subst n.
    destruct (Hentry _ t Hin) as (raw' & Hnth' & Hink & _ & _).
    replace (Z.to_nat (Z.of_nat i + 1 - 1)) with i in Hnth' by lia.
    assert (raw' = raw) by congruence. subst raw'.
    destruct Hempty as [He | He]; apply clean_text_empty in He;
      rewrite ?has_ink_strip in He; congruence.
  - reflexivity.
Qed.

Lemma blank_pages_are_skipped_witness :
  one_file (s "book.pdf") three_pages (s "book.pdf") = Some three_pages /\
  exists logs pages,
    extract_text_from_pdf (one_file (s "book.pdf") three_pages)
      (s "book.pdf") None None = (logs, Ok pages)
    /\ pages = flat_map (page_entry three_pages)
                 (range 0 (page_count three_pages - 1 + 1))
    /\ (forall n t, In (n, t) pages ->
          t <> [] /\ 1 <= n
          /\ exists raw, nth_error three_pages (Z.to_nat (n - 1)) = Some raw
                         /\ t = clean_text (strip raw))
    /\ (forall i raw, nth_error three_pages i = Some raw ->
          clean_text raw = [] \/ clean_text (strip raw) = [] ->
          ~ In (Z.of_nat i + 1) (map fst pages))
    /\ extract_text_from_pdf (one_file (s "book.pdf") three_pages)
         (s "book.pdf") (Some 0) (Some 2)
       = ([PageChars 1 11; PageSkipped 2; PageChars 3 9],
          Ok [(1, s "Hello world"); (3, s "More text")]).
Proof.
  split; [reflexivity |].
  apply (blank_pages_are_skipped (one_file (s "book.pdf") three_pages)
           (s "book.pdf") three_pages None None).
  reflexivity.
Defined.

(** ** The page range typed by the user *)

(** What [extract_clicked] leaves in [extracted] once the range is read. *)
Lemma extract_clicked_accepts (fs : FileSystem) (app : App)
    (c : ascii) (path : str) (doc : Document) (a b : Z) :
  pdf_path app = Some (c :: path) -> fs (c :: path) = Some doc ->
  truthy (strip (pages_entry app)) = true ->
  parse_page_range (strip (pages_entry app)) = Ok (Some a, Some b) ->
  extracted (extract_clicked fs app)
  = flat_map (page_entry doc)
      (range (Z.max 0 a) (Z.min (page_count doc - 1) b + 1))
  /\ dialogs (extract_clicked fs app) = dialogs app.
Proof.
  intros Hpath Hfs Htruthy Hparse. unfold extract_clicked.
  rewrite Hpath. cbv beta iota zeta. rewrite Htruthy, Hparse.
  destruct (extract_text_from_pdf_spec fs (c :: path) doc (Some a) (Some b) Hfs)
    as (logs & ->).
  split; reflexivity.
Qed.

(** A range that is refused changes nothing but the dialog shown. *)
Lemma extract_clicked_rejects (fs : FileSystem) (app : App) (e : exn) :
  truthy (strip (pages_entry app)) = true ->
  parse_page_range (strip (pages_entry app)) = Raise e ->
  extract_clicked fs app = show ErrorInvalidRange app
  \/ extract_clicked fs app = show WarnNoPdf app.
Proof.
  intros Htruthy Hparse. unfold extract_clicked.
  destruct (pdf_path app) as [[| c path] |]; auto.
  cbv beta iota zeta. rewrite Htruthy, Hparse. now left.
Qed.

(** C7.  With a file loaded, the range "2-2" extracts exactly page 2, and
    "3-5" exactly pages 3, 4 and 5 in that order, whenever those pages
    exist and hold ink; the page numbers are those of the document,
    counted from 1. *)
Theorem ranges_2_2_and_3_5 (fs : FileSystem) (app : App) (c : ascii)
    (path : str) (doc : Document) :
  pdf_path app = Some (c :: path) -> fs (c :: path) = Some doc ->
  (forall p2,
     pages_entry app = s "2-2" ->
     nth_error doc 1 = Some p2 -> has_ink p2 = true ->
     extracted (extract_clicked fs app) = [(2, clean_text (strip p2))])
  /\ (forall p3 p4 p5,
        pages_entry app = s "3-5" ->
        nth_error doc 2 = Some p3 -> nth_error doc 3 = Some p4 ->
        nth_error doc 4 = Some p5 ->
        has_ink p3 = true -> has_ink p4 = true -> has_ink p5 = true ->
        extracted (extract_clicked fs app)
        = [(3, clean_text (strip p3)); (4, clean_text (strip p4));
           (5, clean_text (strip p5))]).
Proof.
  intros Hpath Hfs. split.
  - intros p2 Hentry H2 Hink.
    destruct (extract_clicked_accepts fs app c path doc 1 1 Hpath Hfs)
      as [-> _]; [now rewrite Hentry | now rewrite Hentry |].
    assert (Hcount : 2 <= page_count doc).
    { assert (1 < length doc)%nat by (apply nth_error_Some; congruence).
      unfold page_count. lia. }
    replace (Z.min (page_count doc - 1) 1) with 1 by lia.
    change (range (Z.max 0 1) (1 + 1)) with [1].
    cbn [flat_map]. unfold page_entry.
    change (Z.to_nat 1) with 1%nat. rewrite H2, Hink. reflexivity.
  - intros p3 p4 p5 Hentry H3 H4 H5 Hink3 Hink4 Hink5.
    destruct (extract_clicked_accepts fs app c path doc 2 4 Hpath Hfs)
      as [-> _]; [now rewrite Hentry | now rewrite Hentry |].
    assert (Hcount : 5 <= page_count doc).
    { assert (4 < length doc)%nat by (apply nth_error_Some; congruence).
      unfold page_count. lia. }
    replace (Z.min (page_count doc - 1) 4) with 4 by lia.
    change (range (Z.max 0 2) (4 + 1)) with [2; 3; 4].
    cbn [flat_map]. unfold page_entry.
    change (Z.to_nat 2) with 2%nat. change (Z.to_nat 3) with 3%nat.
    change (Z.to_nat 4) with 4%nat.
    rewrite H3, H4, H5, Hink3, Hink4, Hink5. reflexivity.
Qed.

Lemma ranges_2_2_and_3_5_witness :
  extracted (extract_clicked (one_file (s "book.pdf") five_pages)
               (app_with (s "book.pdf") (s "2-2") []))
  = [(2, clean_text (strip (s "two")))]
  /\ extracted (extract_clicked (one_file (s "book.pdf") five_pages)
                  (app_with (s "book.pdf") (s "3-5") []))
     = [(3, clean_text (strip (s "three")));
        (4, clean_text (strip (s "four")));
        (5, clean_text (strip (s "five")))].
Proof.
  split.
  - apply (proj1 (ranges_2_2_and_3_5 (one_file (s "book.pdf") five_pages)
                    (app_with (s "book.pdf") (s "2-2") [])
                    "b"%char (s "ook.pdf") five_pages eq_refl eq_refl));
      reflexivity.
  - apply (proj2 (ranges_2_2_and_3_5 (one_file (s "book.pdf") five_pages)
                    (app_with (s "book.pdf") (s "3-5") [])
                    "b"%char (s "ook.pdf") five_pages eq_refl eq_refl)
             (s "three") (s "four") (s "five"));
      reflexivity.
Defined.

(** C8 on the entry "1-2-3", which is neither "<start>" nor
    "<start>-<end>": [split] gives three parts, the [else] branch reads the
    first one alone, and the entry is taken as page 1.  No error is shown,
    the extraction runs and the page list is replaced. *)
Theorem range_1_2_3_is_taken_as_page_1 :
  parse_page_range (s "1-2-3") = Ok (Some 0, Some 0)
  /\ dialogs (extract_clicked (one_file (s "book.pdf") three_pages)
                (app_with (s "book.pdf") (s "1-2-3") [(9, s "old")]))
     = []
  /\ extracted (extract_clicked (one_file (s "book.pdf") three_pages)
                  (app_with (s "book.pdf") (s "1-2-3") [(9, s "old")]))
     = [(1, s "Hello world")]
  /\ log_text (extract_clicked (one_file (s "book.pdf") three_pages)
                 (app_with (s "book.pdf") (s "1-2-3") [(9, s "old")]))
     = [PageChars 1 11; ExtractionComplete 1].
Proof. repeat split. Qed.

(** ** Conversion *)

Lemma outcomes_app (xs ys : list LogMsg) :
  outcomes (xs ++ ys) = outcomes xs ++ outcomes ys.
Proof. apply flat_map_app. Qed.

Lemma attempts_app (xs ys : list LogMsg) :
  attempts (xs ++ ys) = attempts xs ++ attempts ys.
Proof. apply flat_map_app. Qed.

(** One page: whatever the engine does, the page is started, one record
    is logged for it, and the state is ready for the next page. *)
Lemma export_page_spec (tape : Tape) (engine outdir : str) (page_no : Z)
    (chunks : list str) (app : App) :
  exists entries,
    log_text (export_page tape engine outdir page_no chunks app)
    = log_text app ++ entries
    /\ attempts entries = [page_no]
    /\ outcomes entries = [(page_no, page_result tape engine app 0)]
    /\ dialogs (export_page tape engine outdir page_no chunks app)
       = dialogs app
    /\ forall k,
         page_result tape engine
           (export_page tape engine outdir page_no chunks app) k
         = page_result tape engine app (S k).
Proof.
  unfold export_page, page_result, engine_ready,
    save_text_to_mp3_pyttsx3, save_text_to_mp3_gtts.
  destruct (str_eqb engine pyttsx3) eqn:Eengine; cbn [negb orb].
  - cbn [log tts_manager engine_name spoken].
    destruct (str_eqb (engine_name (tts_manager app)) pyttsx3) eqn:Emgr;
      cbn [negb].
    + rewrite Nat.add_0_r.
      destruct (tape (length (spoken app))) as [e |] eqn:Etape;
        cbn [log speak log_text dialogs tts_manager spoken];
        rewrite ?Emgr, <- ?app_assoc; cbn [List.app];
        eexists; (split; [reflexivity |]);
        repeat split; intros; rewrite ?length_app; cbn [length];
        f_equal; lia.
    + cbn [log log_text dialogs tts_manager spoken].
      rewrite Emgr, <- ?app_assoc. cbn [List.app].
      eexists. split; [reflexivity |]. repeat split.
  - rewrite Nat.add_0_r. cbn [log spoken].
    destruct (tape (length (spoken app))) as [e |] eqn:Etape;
      cbn [log speak log_text dialogs tts_manager spoken];
      rewrite <- ?app_assoc; cbn [List.app];
      eexists; (split; [reflexivity |]);
      repeat split; intros; rewrite ?length_app; cbn [length];
      f_equal; lia.
Qed.

Lemma set_rate_engine_name (rate : Z) (m : TTSManager) :
  engine_name (set_rate rate m) = engine_name m.
Proof. unfold set_rate. now destruct (str_eqb (engine_name m) pyttsx3). Qed.

Lemma chunk_text_finishes (fuel : nat) (text : str) (chunk_size : Z) :
  1 <= chunk_size -> (length text < fuel)%nat ->
  exists chunks, chunk_text fuel text chunk_size = Some chunks.
Proof.
  intros Hsize Hfuel.
  destruct (chunk_text_run text chunk_size Hsize) as (chunks & Hrun & _).
  exists chunks. now apply Hrun.
Qed.

(** The loop over the pages: every page is started and gets its record,
    in order, whatever the earlier pages did. *)
Lemma convert_pages_spec (fuel : nat) (tape : Tape) (engine outdir : str)
    (chunk_size : Z) :
  1 <= chunk_size ->
  forall (pages : list (Z * str)) (app : App),
    (forall n t, In (n, t) pages -> (length t < fuel)%nat) ->
    exists app' entries,
      convert_pages fuel tape engine outdir chunk_size pages app = Some app'
      /\ log_text app' = log_text app ++ entries
      /\ dialogs app' = dialogs app
      /\ attempts entries = map fst pages
      /\ map fst (outcomes entries) = map fst pages
      /\ forall k n t,
           nth_error pages k = Some (n, t) ->
           nth_error (outcomes entries) k
           = Some (n, page_result tape engine app k).
Proof.
  intros Hsize. induction pages as [| [page_no text] rest IH];
    intros app Hfuel.
  - exists app, []. rewrite app_nil_r. repeat split.
    intros [| k] n t; discriminate.
  - destruct (chunk_text_finishes fuel text chunk_size Hsize) as (chunks & Hc);
      [apply (Hfuel page_no); now left |].
    cbn [convert_pages]. rewrite Hc.
    destruct (export_page_spec tape engine outdir page_no chunks app)
      as (first & Hlog1 & Hatt1 & Hout1 & Hdlg1 & Hnext).
    destruct (IH (export_page tape engine outdir page_no chunks app))
      as (app' & entries & Hrun & Hlog & Hdlg & Hatt & Hfst & Hnth);
      [intros n t Hin; apply (Hfuel n); now right |].
    exists app', (first ++ entries). rewrite Hrun, Hlog, Hlog1, Hdlg, Hdlg1.
    rewrite outcomes_app, attempts_app, Hatt1, Hout1, Hatt.
    rewrite <- app_assoc. repeat split.
    + cbn [List.app map fst]. now rewrite Hfst.
    + intros [| k] n t Hk.
      * injection Hk as <- <-. reflexivity.
      * cbn [List.app nth_error] in *. rewrite (Hnth k n t Hk).
        now rewrite Hnext.
Qed.

(** C5.  With a chunk size of at least 1 and a folder chosen, the job runs
    to its end whatever the speech engine raises: every extracted page is
    started, in order, and the log holds one record per page -- as many
    records as pages -- where the [k]-th page is recorded as failed, with
    its exception, exactly when its export raised. *)
Theorem failed_page_does_not_stop_the_job (fuel : nat) (tape : Tape)
    (outdir : str) (app : App) :
  1 <= chunk_var app -> truthy outdir = true ->
  (forall n t, In (n, t) (extracted app) -> (length t < fuel)%nat) ->
  exists app' entries,
    convert_clicked fuel tape outdir app = Some app'
    /\ log_text app' = log_text app ++ entries
    /\ attempts entries = map fst (extracted app)
    /\ map fst (outcomes entries) = map fst (extracted app)
    /\ length (outcomes entries) = length (extracted app)
    /\ forall k n t,
         nth_error (extracted app) k = Some (n, t) ->
         nth_error (outcomes entries) k
         = Some (n, page_result tape (engine_var app) app k).
Proof.
  intros Hsize Hdir Hfuel. unfold convert_clicked.
  destruct (extracted app) as [| page rest] eqn:Epages.
  - exists (show WarnNoText app), []. cbn [show log_text].
    rewrite app_nil_r. repeat split. intros [| k] n t; discriminate.
  - rewrite Hdir. cbn [negb]. rewrite <- Epages in *.
    set (job := if str_eqb (engine_var app) pyttsx3
                then set_manager (set_rate (rate_var app)
                                    (tts_manager (log [StartingConversion] app)))
                       (log [StartingConversion] app)
                else log [StartingConversion] app).
    assert (Hjob : log_text job = log_text app ++ [StartingConversion]
                   /\ extracted job = extracted app
                   /\ forall k, page_result tape (engine_var app) job k
                                = page_result tape (engine_var app) app k).
    { subst job. destruct (str_eqb (engine_var app) pyttsx3);
        (split; [reflexivity |]); (split; [reflexivity |]);
        intros k; unfold page_result, engine_ready;
        cbn [set_manager log tts_manager spoken];
        now rewrite ?set_rate_engine_name. }
    destruct Hjob as (Hlog0 & Hext & Hres).
    destruct (convert_pages_spec fuel tape (engine_var app) outdir
                (chunk_var app) Hsize (extracted job) job)
      as (app' & entries & Hrun & Hlog & _ & Hatt & Hfst & Hnth);
      [rewrite Hext; exact Hfuel |].
    rewrite Hext in Hrun, Hatt, Hfst, Hnth.
    replace (extracted job) with (extracted app).
    rewrite Hrun.
    exists (show (InfoDone outdir) (log [ConversionFinished] app')),
           (StartingConversion :: entries ++ [ConversionFinished]).
    cbn [show log log_text]. rewrite Hlog, Hlog0, <- !app_assoc.
    change (outcomes (StartingConversion :: entries ++ [ConversionFinished]))
      with (outcomes (entries ++ [ConversionFinished])).
    change (attempts (StartingConversion :: entries ++ [ConversionFinished]))
      with (attempts (entries ++ [ConversionFinished])).
    rewrite outcomes_app, attempts_app. cbn [outcomes attempts flat_map
      outcome_of attempt_of]. rewrite !app_nil_r.
    repeat split; auto.
    + rewrite <- (length_map fst), Hfst. apply length_map.
    + intros k n t Hk. rewrite (Hnth k n t Hk). now rewrite Hres.
Qed.

Lemma failed_page_does_not_stop_the_job_witness :
  exists app' entries,
    convert_clicked 100 network_down_on_third (s "out") ready_to_convert
    = Some app'
    /\ log_text app' = log_text ready_to_convert ++ entries
    /\ attempts entries = map fst (extracted ready_to_convert)
    /\ map fst (outcomes entries) = map fst (extracted ready_to_convert)
    /\ length (outcomes entries) = length (extracted ready_to_convert)
    /\ forall k n t,
         nth_error (extracted ready_to_convert) k = Some (n, t) ->
         nth_error (outcomes entries) k
         = Some (n, page_result network_down_on_third
                      (engine_var ready_to_convert) ready_to_convert k).
Proof.
  apply (failed_page_does_not_stop_the_job 100 network_down_on_third
           (s "out") ready_to_convert).
  - vm_compute. discriminate.
  - reflexivity.
  - intros n t Hin. simpl in Hin.
    destruct Hin as [[= <- <-] | [[= <- <-] | [[= <- <-] | [[= <- <-] | []]]]];
      vm_compute; lia.
Defined.

(** The scenario of the specification: the third of four pages fails on
    the network, and the log holds four records, the third one failed. *)
Example third_page_fails :
  option_map (fun app' => outcomes (log_text app'))
    (convert_clicked 100 network_down_on_third (s "out") ready_to_convert)
  = Some [(1, None); (2, None); (3, Some (EngineError 1)); (4, None)].
Proof. reflexivity. Qed.

(** * Further properties of the code *)

(** ** The chunking loop outside its working range *)

Lemma adjust_index_range (n i : Z) : 0 <= n -> 0 <= adjust_index n i <= n.
Proof.
  intros Hn. unfold adjust_index.
  destruct (i <? 0) eqn:E; [apply Z.ltb_lt in E | apply Z.ltb_ge in E]; lia.
Qed.

Lemma slice_length_le (t : str) (a b : Z) :
  Z.of_nat (length (slice t a b)) <= len t - adjust_index (len t) a.
Proof.
  unfold slice. rewrite length_firstn, length_skipn.
  pose proof (adjust_index_range (len t) a (len_nonneg t)).
  unfold len in *. lia.
Qed.

(** [rfind] answers -1 or an index of the text, whatever the bounds. *)
Lemma rfind_range (t : str) (c : ascii) (a b : Z) :
  -1 <= rfind t c a b < len t.
Proof.
  unfold rfind. pose proof (len_nonneg t).
  destruct (rindex c (slice t a b)) as [k |] eqn:E; [| lia].
  destruct (rindex_Some _ _ _ E) as [Hk _].
  assert (Hn : (k < length (slice t a b))%nat)
    by (apply nth_error_Some; congruence).
  pose proof (slice_length_le t a b).
  pose proof (adjust_index_range (len t) a (len_nonneg t)). lia.
Qed.

(** With a chunk size of 0 or less the cursor stays inside the text. *)
Lemma window_end_stays_inside (text : str) (chunk_size start : Z) :
  chunk_size <= 0 -> start < len text ->
  window_end text chunk_size start < len text.
Proof.
  intros Hsize Hstart. unfold window_end.
  destruct (Z.min (start + chunk_size) (len text) <? len text) eqn:E;
    [| apply Z.ltb_ge in E; lia].
  apply Z.ltb_lt in E.
  destruct (rfind text space start (Z.min (start + chunk_size) (len text))
            >? start); [| exact E].
  apply rfind_range.
Qed.

Lemma chunk_while_hangs (fuel : nat) (text : str) (chunk_size : Z) :
  chunk_size <= 0 ->
  forall start acc, start < len text ->
    chunk_while fuel text chunk_size start acc = None.
Proof.
  intros Hsize. induction fuel as [| fuel IH]; intros start acc Hstart;
    [reflexivity |].
  simpl. destruct (start <? len text) eqn:E; [| apply Z.ltb_ge in E; lia].
  apply IH. now apply window_end_stays_inside.
Qed.

Lemma chunk_text_hangs (fuel : nat) (text : str) (chunk_size : Z) :
  chunk_size <= 0 -> text <> [] -> chunk_text fuel text chunk_size = None.
Proof.
  intros Hsize Hne. unfold chunk_text.
  assert (Hlen : 0 < len text)
    by (destruct text; [contradiction | unfold len; simpl; lia]).
  destruct (len text <=? chunk_size) eqn:E; [apply Z.leb_le in E; lia |].
  apply chunk_while_hangs; lia.
Qed.

(** X1.  With a chunk size of 0 or less the chunking loop of a non-empty
    page never ends, whatever the fuel; the job of [convert_clicked] then
    never finishes: with a folder chosen and a first page that is not
    empty it gives no final state. *)
Theorem nonpositive_chunk_size_hangs (fuel : nat) (tape : Tape)
    (outdir : str) (app : App) (page_no : Z) (text : str)
    (rest : list (Z * str)) :
  chunk_var app <= 0 -> truthy outdir = true ->
  extracted app = (page_no, text) :: rest -> text <> [] ->
  chunk_text fuel text (chunk_var app) = None
  /\ convert_clicked fuel tape outdir app = None.
Proof.
  intros Hsize Hdir Hpages Hne.
  pose proof (chunk_text_hangs fuel text (chunk_var app) Hsize Hne) as Hhang.
  split; [exact Hhang |].
  unfold convert_clicked. rewrite Hpages, Hdir. cbn [negb].
  match goal with
  | |- match convert_pages _ _ _ _ _ _ ?a with _ => _ end = _ =>
      assert (Hext : extracted a = (page_no, text) :: rest)
        by (destruct (str_eqb (engine_var app) pyttsx3); exact Hpages);
      rewrite Hext
  end.
  cbn [convert_pages]. now rewrite Hhang.
Qed.

Lemma nonpositive_chunk_size_hangs_witness :
  chunk_text 50 (s "first page") 0 = None
  /\ convert_clicked 50 network_down_on_third (s "out")
       (mkApp (Some (s "book.pdf")) [] gTTS 160 0 four_pages [] [] []
          (mkTTSManager gTTS None) [])
     = None.
Proof.
  apply (nonpositive_chunk_size_hangs 50 network_down_on_third (s "out")
           (mkApp (Some (s "book.pdf")) [] gTTS 160 0 four_pages [] [] []
              (mkTTSManager gTTS None) [])
           1 (s "first page") (tl four_pages)).
  - simpl. lia.
  - reflexivity.
  - reflexivity.
  - discriminate.
Defined.

(** ** The shape of the chunks *)

(** Whatever the fuel, an answer of [chunk_text] is the page itself or the
    run of the loop. *)
Lemma chunk_text_sound (fuel : nat) (text : str) (chunk_size : Z)
    (chunks : list str) :
  chunk_text fuel text chunk_size = Some chunks ->
  (len text <= chunk_size /\ chunks = [text])
  \/ (chunk_size < len text /\ chunks_from text chunk_size 0 chunks).
Proof.
  unfold chunk_text. destruct (len text <=? chunk_size) eqn:E.
  - intros [= <-]. left. split; [now apply Z.leb_le | reflexivity].
  - intros H. right. split; [apply Z.leb_gt in E; lia |].
    destruct (chunk_while_sound _ _ _ _ _ _ H) as (run & -> & Hrun).
    exact Hrun.
Qed.

(** The edge of a window is its raw edge, or it holds a space. *)
Lemma window_end_cases (text : str) (chunk_size start : Z) :
  1 <= chunk_size -> 0 <= start < len text ->
  window_end text chunk_size start = Z.min (start + chunk_size) (len text)
  \/ char_at text (window_end text chunk_size start) = Some space.
Proof.
  intros Hsize Hstart. unfold window_end.
  destruct (Z.min (start + chunk_size) (len text) <? len text) eqn:E;
    [| now left].
  destruct (rfind text space start (Z.min (start + chunk_size) (len text))
            >? start) eqn:G; [| now left].
  right. apply Z.gtb_lt in G.
  destruct (rfind_spec text space start
              (Z.min (start + chunk_size) (len text)))
    as [[Hr _] | (_ & Hc & _)]; [lia | lia | lia | exact Hc].
Qed.

Lemma hd_error_slice (text : str) (a b : Z) :
  0 <= a < b -> b <= len text ->
  hd_error (slice text a b) = char_at text a.
Proof.
  intros Ha Hb. rewrite <- (char_at_slice text a b a) by lia.
  rewrite Z.sub_diag. now destruct (slice text a b).
Qed.

(** X2.  Where the loop cuts.  For a chunk size of at least 1 the
    chunking of a page ends, and of two chunks that follow each other the
    first one is a full window of [chunk_size] characters or the second one
    begins with the space on which the cut was made -- the space is not
    dropped, it opens the next chunk. *)
Theorem cut_is_raw_or_before_space (text : str) (chunk_size : Z) :
  1 <= chunk_size ->
  exists chunks,
    (forall fuel, (length text < fuel)%nat ->
       chunk_text fuel text chunk_size = Some chunks)
    /\ forall done c d rest,
         chunks = done ++ c :: d :: rest ->
         len c = chunk_size \/ hd_error d = Some space.
Proof.
  intros Hsize.
  destruct (chunk_text_run text chunk_size Hsize) as (chunks & Hrun & _).
  exists chunks. split; [exact Hrun |].
  intros done c d rest ->.
  specialize (Hrun (S (length text)) (Nat.lt_succ_diag_r _)).
  destruct (chunk_text_sound _ _ _ _ Hrun) as [[_ Hone] | [_ Hfrom]].
  - destruct done as [| x [| y done]]; discriminate.
  - destruct (chunks_from_nth text chunk_size Hsize done 0 c (d :: rest)
                (Z.le_refl 0) Hfrom) as (Hcur & Hc & Hnext).
    set (cursor := cursor_after 0 done) in *.
    pose proof (window_end_bounds text chunk_size cursor Hsize Hcur) as Hw.
    inversion Hnext as [| ? ? Hlt Hrest]; subst.
    assert (Hcut : 0 <= window_end text chunk_size cursor < len text) by lia.
    pose proof (window_end_bounds text chunk_size _ Hsize Hcut) as Hw2.
    destruct (window_end_cases text chunk_size cursor Hsize Hcur)
      as [Hraw | Hsp].
    + left. rewrite slice_len by lia. lia.
    + right. rewrite hd_error_slice by lia. exact Hsp.
Qed.

Lemma cut_is_raw_or_before_space_witness :
  1 <= 7 /\
  exists chunks,
    (forall fuel, (length (s "hello world foo") < fuel)%nat ->
       chunk_text fuel (s "hello world foo") 7 = Some chunks)
    /\ forall done c d rest,
         chunks = done ++ c :: d :: rest ->
         len c = 7 \/ hd_error d = Some space.
Proof.
  split; [lia |].
  apply (cut_is_raw_or_before_space (s "hello world foo") 7). lia.
Defined.

Lemma len_concat_le (chunks : list str) (bound : Z) :
  Forall (fun c => len c <= bound) chunks ->
  len (concat chunks) <= bound * Z.of_nat (length chunks).
Proof.
  induction 1 as [| c rest Hc _ IH]; [simpl; unfold len; simpl; lia |].
  cbn [concat length]. rewrite len_app. lia.
Qed.

(** X3.  How many chunks a page gives.  For a chunk size of at least 1
    the chunking of a page ends with a number [n] of chunks that is enough
    to hold the text ([len text <= chunk_size * n]), at least one, and
    never more than one per character (one for an empty page). *)
Theorem chunk_count_bounds (text : str) (chunk_size : Z) :
  1 <= chunk_size ->
  exists chunks,
    (forall fuel, (length text < fuel)%nat ->
       chunk_text fuel text chunk_size = Some chunks)
    /\ len text <= chunk_size * Z.of_nat (length chunks)
    /\ (1 <= length chunks <= Nat.max 1 (length text))%nat.
Proof.
  intros Hsize.
  destruct (chunk_text_run text chunk_size Hsize)
    as (chunks & Hrun & Hcat & Hsizes).
  exists chunks. split; [exact Hrun |].
  specialize (Hrun (S (length text)) (Nat.lt_succ_diag_r _)).
  split.
  - rewrite <- Hcat at 1. now apply len_concat_le.
  - destruct (chunk_text_sound _ _ _ _ Hrun) as [[Hfit ->] | [Hlong Hfrom]].
    + cbn [length]. lia.
    + destruct (page_run text chunk_size Hsize) as (run & Hpage & Hmax & _).
      assert (run = chunks)
        by (eapply chunks_from_functional; eassumption).
      subst run. split; [| lia].
      inversion Hfrom; subst; [lia | simpl; lia].
Qed.

Lemma chunk_count_bounds_witness :
  1 <= 4 /\
  exists chunks,
    (forall fuel, (length (s "ab cdefghij kl") < fuel)%nat ->
       chunk_text fuel (s "ab cdefghij kl") 4 = Some chunks)
    /\ len (s "ab cdefghij kl") <= 4 * Z.of_nat (length chunks)
    /\ (1 <= length chunks <= Nat.max 1 (length (s "ab cdefghij kl")))%nat.
Proof.
  split; [lia |].
  apply (chunk_count_bounds (s "ab cdefghij kl") 4). lia.
Defined.

(** ** The calls made to the speech engine *)

Lemma convert_clicked_job (fuel : nat) (tape : Tape) (outdir : str)
    (app : App) :
  truthy outdir = true ->
  convert_clicked fuel tape outdir app
  = match extracted app with
    | [] => Some (show WarnNoText app)
    | _ :: _ =>
        match convert_pages fuel tape (engine_var app) outdir (chunk_var app)
                (extracted app) (job_start app) with
        | None => None
        | Some app' =>
            Some (show (InfoDone outdir) (log [ConversionFinished] app'))
        end
    end.
Proof.
  intros Hdir. unfold convert_clicked, job_start.
  destruct (extracted app) as [| page rest] eqn:E; [reflexivity |].
  rewrite Hdir. cbn [negb log engine_var rate_var tts_manager].
  destruct (str_eqb (engine_var app) pyttsx3);
    cbn [set_manager log extracted]; now rewrite E.
Qed.

Lemma job_start_frame (app : App) :
  spoken (job_start app) = spoken app
  /\ log_text (job_start app) = log_text app ++ [StartingConversion]
  /\ forall engine,
       engine_ready engine (job_start app) = engine_ready engine app.
Proof.
  unfold job_start, engine_ready.
  cbn [log engine_var rate_var tts_manager].
  destruct (str_eqb (engine_var app) pyttsx3);
    cbn [set_manager log spoken log_text tts_manager];
    rewrite ?set_rate_engine_name; auto.
Qed.

(** One page with a manager that matches: one call, with the chunks
    joined. *)
Lemma export_page_call (tape : Tape) (engine outdir : str) (page_no : Z)
    (chunks : list str) (app : App) :
  engine_ready engine app = true ->
  spoken (export_page tape engine outdir page_no chunks app)
  = spoken app ++ [(spoken_text engine chunks, (outdir, page_file page_no))]
  /\ engine_ready engine (export_page tape engine outdir page_no chunks app)
     = true.
Proof.
  unfold engine_ready, export_page, spoken_text,
    save_text_to_mp3_pyttsx3, save_text_to_mp3_gtts.
  destruct (str_eqb engine pyttsx3) eqn:Eengine; cbn [negb orb].
  - intros Hmgr. cbn [log tts_manager engine_name spoken]. rewrite Hmgr.
    cbn [negb].
    destruct (tape (length (spoken app)));
      cbn [log speak spoken tts_manager]; now rewrite Hmgr.
  - intros _. cbn [log spoken].
    destruct (tape (length (spoken app)));
      cbn [log speak spoken tts_manager]; auto.
Qed.

(** One page with a manager built for another engine: no call, and the
    page is recorded as failed. *)
Lemma export_page_refused (tape : Tape) (engine outdir : str) (page_no : Z)
    (chunks : list str) (app : App) :
  engine_ready engine app = false ->
  spoken (export_page tape engine outdir page_no chunks app) = spoken app
  /\ engine_ready engine (export_page tape engine outdir page_no chunks app)
     = false
  /\ exists entries,
       log_text (export_page tape engine outdir page_no chunks app)
       = log_text app ++ entries
       /\ outcomes entries = [(page_no, Some RuntimeError)].
Proof.
  unfold engine_ready, export_page, save_text_to_mp3_pyttsx3.
  destruct (str_eqb engine pyttsx3) eqn:Eengine; cbn [negb orb];
    [| discriminate].
  intros Hmgr. cbn [log tts_manager engine_name spoken]. rewrite Hmgr.
  cbn [negb log spoken tts_manager log_text]. rewrite Hmgr.
  repeat split. eexists. rewrite <- app_assoc. split; reflexivity.
Qed.

(** The loop over the pages, for a manager that matches: one call per
    page, in page order. *)
Lemma convert_pages_calls (fuel : nat) (tape : Tape) (engine outdir : str)
    (chunk_size : Z) :
  forall (pages : list (Z * str)) (app app' : App),
    engine_ready engine app = true ->
    convert_pages fuel tape engine outdir chunk_size pages app = Some app' ->
    exists sent,
      spoken app' = spoken app ++ sent
      /\ Forall2 (fun page call =>
                    snd call = (outdir, page_file (fst page))
                    /\ exists chunks,
                         chunk_text fuel (snd page) chunk_size = Some chunks
                         /\ fst call = spoken_text engine chunks)
           pages sent.
Proof.
  induction pages as [| [page_no text] rest IH]; intros app app' Hready.
  - intros [= <-]. exists []. now rewrite app_nil_r.
  - cbn [convert_pages].
    destruct (chunk_text fuel text chunk_size) as [chunks |] eqn:Ec;
      [| discriminate].
    intros Hrun.
    destruct (export_page_call tape engine outdir page_no chunks app Hready)
      as [Hcall Hready'].
    destruct (IH _ _ Hready' Hrun) as (sent & Hsent & Hall).
    exists ((spoken_text engine chunks, (outdir, page_file page_no)) :: sent).
    split; [rewrite Hsent, Hcall; now rewrite <- app_assoc |].
    constructor; [| exact Hall].
    split; [reflexivity |]. exists chunks. now split.
Qed.

Lemma convert_pages_finishes (fuel : nat) (tape : Tape) (engine outdir : str)
    (chunk_size : Z) :
  forall (pages : list (Z * str)) (app : App),
    (forall n t, In (n, t) pages ->
       exists chunks, chunk_text fuel t chunk_size = Some chunks) ->
    exists app',
      convert_pages fuel tape engine outdir chunk_size pages app = Some app'.
Proof.
  induction pages as [| [page_no text] rest IH]; intros app Hall.
  - now exists app.
  - cbn [convert_pages].
    destruct (Hall page_no text) as (chunks & ->); [now left |].
    apply IH. intros n t Hin. apply (Hall n). now right.
Qed.

(** X4.  With a manager that matches the engine chosen, a job that ends
    has made exactly one call to the speech engine per extracted page, in
    page order: the call of page [n] writes to [page_<n>.mp3] in the
    folder chosen, and its text is the chunks of the page joined by a blank
    line (pyttsx3) or by a space (any other engine).  This holds whether
    the calls succeed or raise. *)
Theorem one_engine_call_per_page (fuel : nat) (tape : Tape) (outdir : str)
    (app app' : App) :
  truthy outdir = true ->
  engine_ready (engine_var app) app = true ->
  convert_clicked fuel tape outdir app = Some app' ->
  exists sent,
    spoken app' = spoken app ++ sent
    /\ Forall2 (fun page call =>
                  snd call = (outdir, page_file (fst page))
                  /\ exists chunks,
                       chunk_text fuel (snd page) (chunk_var app) = Some chunks
                       /\ fst call = spoken_text (engine_var app) chunks)
         (extracted app) sent.
Proof.
  intros Hdir Hready. rewrite (convert_clicked_job _ _ _ _ Hdir).
  destruct (extracted app) as [| page rest] eqn:E.
  - intros [= <-]. exists []. cbn [show spoken]. now rewrite app_nil_r.
  - destruct (convert_pages fuel tape (engine_var app) outdir (chunk_var app)
                (page :: rest) (job_start app)) as [done |] eqn:Erun;
      [| discriminate].
    intros [= <-].
    destruct (job_start_frame app) as (Hspoken & _ & Hsame).
    destruct (convert_pages_calls _ _ _ _ _ _ _ _
                (eq_trans (Hsame _) Hready) Erun) as (sent & Hsent & Hall).
    exists sent. cbn [show log spoken]. now rewrite Hsent, Hspoken.
Qed.

Lemma one_engine_call_per_page_witness :
  exists sent,
    spoken converted = spoken ready_to_convert ++ sent
    /\ Forall2 (fun page call =>
                  snd call = (s "out", page_file (fst page))
                  /\ exists chunks,
                       chunk_text 100 (snd page) (chunk_var ready_to_convert)
                       = Some chunks
                       /\ fst call
                          = spoken_text (engine_var ready_to_convert) chunks)
         (extracted ready_to_convert) sent.
Proof.
  apply (one_engine_call_per_page 100 network_down_on_third (s "out")
           ready_to_convert converted);
    reflexivity.
Defined.

Lemma chunk_text_short (fuel : nat) (text : str) (chunk_size : Z) :
  len text <= chunk_size -> chunk_text fuel text chunk_size = Some [text].
Proof.
  intros H. unfold chunk_text. apply Z.leb_le in H. now rewrite H.
Qed.

Lemma spoken_text_one (engine text : str) : spoken_text engine [text] = text.
Proof. unfold spoken_text. now destruct (str_eqb engine pyttsx3). Qed.

(** X5.  Pages that fit in one chunk are handed to the engine as they are:
    when no extracted page is longer than the chunk size (and the manager
    matches the engine chosen), the job ends whatever the fuel and whatever
    the engine raises, and the texts it hands over are exactly the page
    texts, in page order, each for its own file. *)
Theorem short_pages_are_spoken_verbatim (fuel : nat) (tape : Tape)
    (outdir : str) (app : App) :
  truthy outdir = true ->
  engine_ready (engine_var app) app = true ->
  (forall n t, In (n, t) (extracted app) -> len t <= chunk_var app) ->
  exists app',
    convert_clicked fuel tape outdir app = Some app'
    /\ spoken app' = spoken app ++ map (verbatim_call outdir) (extracted app).
Proof.
  intros Hdir Hready Hshort. rewrite (convert_clicked_job _ _ _ _ Hdir).
  destruct (extracted app) as [| page rest] eqn:E.
  - eexists. split; [reflexivity |]. cbn [show spoken map].
    now rewrite app_nil_r.
  - rewrite <- E in *.
    destruct (convert_pages_finishes fuel tape (engine_var app) outdir
                (chunk_var app) (extracted app) (job_start app))
      as (done & Hrun).
    { intros n t Hin. exists [t]. apply chunk_text_short. now apply (Hshort n). }
    rewrite Hrun. eexists. split; [reflexivity |].
    destruct (job_start_frame app) as (Hspoken & _ & Hsame).
    destruct (convert_pages_calls _ _ _ _ _ _ _ _
                (eq_trans (Hsame _) Hready) Hrun) as (sent & Hsent & Hall).
    cbn [show log spoken]. rewrite Hsent, Hspoken. f_equal.
    clear -Hall Hshort. induction Hall as [| [n t] [txt path] pages sent
      (Hpath & chunks & Hchunks & Htxt) Hall IHHall]; [reflexivity |].
    cbn [map fst snd] in *.
    rewrite chunk_text_short in Hchunks by (apply (Hshort n); now left).
    injection Hchunks as <-. rewrite spoken_text_one in Htxt.
    unfold verbatim_call at 1. cbn [fst snd]. subst txt path.
    rewrite IHHall; [reflexivity |].
    intros m u Hin. apply (Hshort m). now right.
Qed.

Lemma short_pages_are_spoken_verbatim_witness :
  exists app',
    convert_clicked 0 network_down_on_third (s "out") ready_to_convert
    = Some app'
    /\ spoken app'
       = spoken ready_to_convert
         ++ map (verbatim_call (s "out")) (extracted ready_to_convert).
Proof.
  apply (short_pages_are_spoken_verbatim 0 network_down_on_third (s "out")
           ready_to_convert).
  - reflexivity.
  - reflexivity.
  - intros n t Hin. simpl in Hin.
    destruct Hin as [[= <- <-] | [[= <- <-] | [[= <- <-] | [[= <- <-] | []]]]];
      vm_compute; discriminate.
Defined.

Lemma convert_pages_refused (fuel : nat) (tape : Tape) (engine outdir : str)
    (chunk_size : Z) :
  forall (pages : list (Z * str)) (app app' : App),
    engine_ready engine app = false ->
    convert_pages fuel tape engine outdir chunk_size pages app = Some app' ->
    spoken app' = spoken app
    /\ exists entries,
         log_text app' = log_text app ++ entries
         /\ outcomes entries
            = map (fun page => (fst page, Some RuntimeError)) pages.
Proof.
  induction pages as [| [page_no text] rest IH]; intros app app' Hready.
  - intros [= <-]. split; [reflexivity |]. exists []. now rewrite app_nil_r.
  - cbn [convert_pages].
    destruct (chunk_text fuel text chunk_size) as [chunks |]; [| discriminate].
    intros Hrun.
    destruct (export_page_refused tape engine outdir page_no chunks app Hready)
      as (Hspoken & Hready' & first & Hlog & Hout).
    destruct (IH _ _ Hready' Hrun) as (Hsp & entries & Hlogs & Houts).
    split; [congruence |].
    exists (first ++ entries). rewrite Hlogs, Hlog, <- app_assoc.
    split; [reflexivity |]. now rewrite outcomes_app, Hout, Houts.
Qed.

(** X6.  A manager built for another engine than pyttsx3 while pyttsx3 is
    the engine chosen: [save_text_to_mp3_pyttsx3] raises before it reaches
    the engine.  A job that ends has then handed nothing to any engine,
    and has recorded every page as failed with that error. *)
Theorem mismatched_manager_fails_every_page (fuel : nat) (tape : Tape)
    (outdir : str) (app app' : App) :
  truthy outdir = true ->
  engine_ready (engine_var app) app = false ->
  convert_clicked fuel tape outdir app = Some app' ->
  spoken app' = spoken app
  /\ exists entries,
       log_text app' = log_text app ++ entries
       /\ outcomes entries
          = map (fun page => (fst page, Some RuntimeError)) (extracted app).
Proof.
  intros Hdir Hready. rewrite (convert_clicked_job _ _ _ _ Hdir).
  destruct (extracted app) as [| page rest] eqn:E.
  - intros [= <-]. split; [reflexivity |]. exists [].
    cbn [show log_text]. now rewrite app_nil_r.
  - destruct (convert_pages fuel tape (engine_var app) outdir (chunk_var app)
                (page :: rest) (job_start app)) as [done |] eqn:Erun;
      [| discriminate].
    intros [= <-].
    destruct (job_start_frame app) as (Hspoken & Hlog0 & Hsame).
    destruct (convert_pages_refused _ _ _ _ _ _ _ _
                (eq_trans (Hsame _) Hready) Erun)
      as (Hsp & entries & Hlogs & Houts).
    cbn [show log spoken log_text]. split; [congruence |].
    exists (StartingConversion :: entries ++ [ConversionFinished]).
    rewrite Hlogs, Hlog0, <- !app_assoc. split; [reflexivity |].
    change (outcomes (StartingConversion :: entries ++ [ConversionFinished]))
      with (outcomes (entries ++ [ConversionFinished])).
    rewrite outcomes_app, Houts. apply app_nil_r.
Qed.

Lemma mismatched_manager_fails_every_page_witness :
  spoken mismatched_done = spoken mismatched
  /\ exists entries,
       log_text mismatched_done = log_text mismatched ++ entries
       /\ outcomes entries
          = map (fun page => (fst page, Some RuntimeError))
              (extracted mismatched).
Proof.
  apply (mismatched_manager_fails_every_page 100 network_down_on_third
           (s "out") mismatched mismatched_done);
    reflexivity.
Defined.

(** ** Page numbers in print *)

Lemma lstrip_ink_head (c : ascii) (t : str) :
  isspace c = false -> lstrip (c :: t) = c :: t.
Proof. intros H. simpl. now rewrite H. Qed.

Lemma strip_solid (t : str) :
  forallb (fun c => negb (isspace c)) t = true -> strip t = t.
Proof.
  intros Hall.
  assert (Hl : forall u, forallb (fun c => negb (isspace c)) u = true ->
                         lstrip u = u).
  { intros [| c u]; [reflexivity |]. simpl.
    intros H. apply andb_prop in H. destruct H as [Hc _].
    now destruct (isspace c). }
  unfold strip, rstrip. rewrite (Hl t Hall), Hl, rev_involutive; auto.
  rewrite forallb_forall in *. intros c Hc. apply Hall. now apply in_rev.
Qed.

Lemma uint_chars_solid (d : Decimal.uint) :
  forallb (fun c => negb (isspace c)) (s (NilEmpty.string_of_uint d)) = true.
Proof. induction d; simpl; auto. Qed.

(** The digits of a number, read back with a digit already seen. *)
Lemma parse_digits_acc (d : Decimal.uint) (acc : positive) :
  parse_digits (s (NilEmpty.string_of_uint d)) (Z.pos acc) true
  = Some (Z.pos (Pos.of_uint_acc d acc)).
Proof.
  revert acc. induction d; intros acc; [reflexivity | ..];
    cbn [NilEmpty.string_of_uint s list_ascii_of_string parse_digits];
    match goal with
    | |- context [digit_value ?c] =>
        let v := eval vm_compute in (digit_value c) in
        change (digit_value c) with v
    end;
    cbv iota beta; cbn [Pos.of_uint_acc]; rewrite <- IHd;
    unfold s; f_equal; lia.
Qed.

Lemma parse_digits_uint (d : Decimal.uint) (after_digit : bool) :
  d <> Decimal.Nil ->
  parse_digits (s (NilEmpty.string_of_uint d)) 0 after_digit
  = Some (Z.of_N (Pos.of_uint d)).
Proof.
  revert after_digit. induction d; intros after_digit Hd;
    [contradiction | ..];
    cbn [NilEmpty.string_of_uint s list_ascii_of_string parse_digits];
    match goal with
    | |- context [digit_value ?c] =>
        let v := eval vm_compute in (digit_value c) in
        change (digit_value c) with v
    end;
    cbv iota beta;
    try (cbn [Pos.of_uint Z.of_N]; rewrite <- parse_digits_acc;
         reflexivity).
  cbn [Pos.of_uint].
  destruct d; try (apply IHd; discriminate). reflexivity.
Qed.

Lemma to_uint_not_nil (p : positive) : Pos.to_uint p <> Decimal.Nil.
Proof.
  intros H. pose proof (DecimalPos.Unsigned.of_to p) as Hp.
  rewrite H in Hp. discriminate.
Qed.

Lemma decimal_pos (p : positive) :
  decimal (Z.pos p) = s (NilEmpty.string_of_uint (Pos.to_uint p)).
Proof.
  unfold decimal. simpl. pose proof (to_uint_not_nil p).
  now destruct (Pos.to_uint p).
Qed.

Lemma decimal_neg (p : positive) :
  decimal (Z.neg p)
  = "-"%char :: s (NilEmpty.string_of_uint (Pos.to_uint p)).
Proof.
  unfold decimal. simpl. pose proof (to_uint_not_nil p).
  now destruct (Pos.to_uint p).
Qed.

Lemma decimal_solid (n : Z) :
  forallb (fun c => negb (isspace c)) (decimal n) = true.
Proof.
  destruct n as [| p | p]; [reflexivity | |].
  - rewrite decimal_pos. apply uint_chars_solid.
  - rewrite decimal_neg. simpl. apply uint_chars_solid.
Qed.

Lemma uint_head_digit (d : Decimal.uint) (c : ascii) (t : str) :
  s (NilEmpty.string_of_uint d) = c :: t ->
  Ascii.eqb c "+"%char = false /\ Ascii.eqb c "-"%char = false
  /\ Ascii.eqb c hyphen = false.
Proof. destruct d; simpl; [discriminate | ..]; intros [= <- _]; auto. Qed.

Lemma int_lstrip_solid (t : str) :
  forallb (fun c => negb (isspace c)) t = true -> int_lstrip t = t.
Proof.
  destruct t as [| c t]; [reflexivity |]. simpl.
  intros H. apply andb_prop in H. destruct H as [Hc _].
  unfold int_space. now destruct (isspace c).
Qed.

Lemma int_strip_solid (t : str) :
  forallb (fun c => negb (isspace c)) t = true -> int_strip t = t.
Proof.
  intros Hall. unfold int_strip.
  rewrite (int_lstrip_solid t Hall), int_lstrip_solid, rev_involutive; auto.
  rewrite forallb_forall in *. intros c Hc. apply Hall. now apply in_rev.
Qed.

Lemma py_int_read (t : str) :
  py_int t
  = match read_number (int_strip t) with
    | Some n =>
        if Z.of_nat (length (filter is_digit (int_strip t))) <=? max_str_digits
        then Ok n
        else Raise ValueError
    | None => Raise ValueError
    end.
Proof. reflexivity. Qed.

(** What an f-string prints for a number reads back as that number. *)
Lemma read_number_decimal (n : Z) : read_number (decimal n) = Some n.
Proof.
  unfold read_number.
  destruct n as [| p | p]; [reflexivity | |].
  - rewrite decimal_pos.
    pose proof (parse_digits_uint (Pos.to_uint p) false (to_uint_not_nil p))
      as Hp.
    rewrite DecimalPos.Unsigned.of_to in Hp. simpl Z.of_N in Hp.
    destruct (s (NilEmpty.string_of_uint (Pos.to_uint p))) as [| c t] eqn:E;
      [discriminate |].
    destruct (uint_head_digit _ _ _ E) as (-> & -> & _). exact Hp.
  - rewrite decimal_neg.
    pose proof (parse_digits_uint (Pos.to_uint p) false (to_uint_not_nil p))
      as Hp.
    rewrite DecimalPos.Unsigned.of_to in Hp. simpl Z.of_N in Hp.
    change (Ascii.eqb "-" "+") with false.
    change (Ascii.eqb "-" "-") with true. cbv iota. now rewrite Hp.
Qed.

(** [int] reads back what an f-string prints, as long as the digits do not
    pass the interpreter's cap. *)
Lemma py_int_decimal (n : Z) :
  len (decimal n) <= max_str_digits -> py_int (decimal n) = Ok n.
Proof.
  intros Hcap.
  rewrite py_int_read, (int_strip_solid _ (decimal_solid n)),
    read_number_decimal.
  pose proof (filter_length_le is_digit (decimal n)) as Hle.
  unfold len in Hcap.
  destruct (Z.of_nat (length (filter is_digit (decimal n)))
            <=? max_str_digits) eqn:E; [reflexivity |].
  apply Z.leb_gt in E. lia.
Qed.

(** X7.  Two pages never share a file: [page_<n>.mp3] names the page
    number, so different page numbers give different file names. *)
Theorem page_file_injective (n m : Z) :
  page_file n = page_file m -> n = m.
Proof.
  unfold page_file. intros H.
  apply app_inv_head in H. apply app_inv_tail in H.
  fold (decimal n) in H. fold (decimal m) in H.
  pose proof (read_number_decimal n) as Hn.
  rewrite H, read_number_decimal in Hn.
  now injection Hn.
Qed.

Lemma page_file_injective_witness : 12 = 12.
Proof. apply (page_file_injective 12 12). reflexivity. Defined.

(** ** Ranges as they are typed *)

Lemma split_no_sep (sep : ascii) (t : str) :
  forallb (fun c => negb (Ascii.eqb c sep)) t = true -> split sep t = [t].
Proof.
  induction t as [| c t IH]; [reflexivity |]. simpl.
  intros H. apply andb_prop in H. destruct H as [Hc Ht].
  destruct (Ascii.eqb c sep); [discriminate |]. now rewrite IH.
Qed.

Lemma split_at_sep (sep : ascii) (t u : str) :
  forallb (fun c => negb (Ascii.eqb c sep)) t = true ->
  split sep (t ++ sep :: u) = t :: split sep u.
Proof.
  induction t as [| c t IH]; simpl.
  - intros _. now rewrite Ascii.eqb_refl.
  - intros H. apply andb_prop in H. destruct H as [Hc Ht].
    destruct (Ascii.eqb c sep); [discriminate |]. now rewrite IH.
Qed.

Lemma uint_chars_no_hyphen (d : Decimal.uint) :
  forallb (fun c => negb (Ascii.eqb c hyphen))
    (s (NilEmpty.string_of_uint d)) = true.
Proof. induction d; simpl; auto. Qed.

Lemma decimal_no_hyphen (n : Z) :
  0 <= n ->
  forallb (fun c => negb (Ascii.eqb c hyphen)) (decimal n) = true.
Proof.
  destruct n as [| p | p]; [reflexivity | | lia]. intros _.
  rewrite decimal_pos. apply uint_chars_no_hyphen.
Qed.

Lemma decimal_not_empty (n : Z) : truthy (decimal n) = true.
Proof.
  destruct n as [| p | p]; [reflexivity | | now rewrite decimal_neg].
  rewrite decimal_pos. pose proof (to_uint_not_nil p).
  now destruct (Pos.to_uint p).
Qed.

Lemma parse_single (a : Z) :
  0 <= a -> len (decimal a) <= max_str_digits ->
  parse_page_range (decimal a) = Ok (Some (a - 1), Some (a - 1)).
Proof.
  intros Ha Hcap. unfold parse_page_range.
  rewrite (split_no_sep _ _ (decimal_no_hyphen a Ha)).
  cbn [length Nat.eqb item nth]. now rewrite py_int_decimal.
Qed.

Lemma parse_pair (a b : Z) :
  0 <= a -> 0 <= b ->
  len (decimal a) <= max_str_digits -> len (decimal b) <= max_str_digits ->
  parse_page_range (range_entry a b) = Ok (Some (a - 1), Some (b - 1)).
Proof.
  intros Ha Hb Hcapa Hcapb. unfold parse_page_range, range_entry.
  rewrite (split_at_sep _ _ _ (decimal_no_hyphen a Ha)).
  rewrite (split_no_sep _ _ (decimal_no_hyphen b Hb)).
  cbn [length Nat.eqb item nth]. now rewrite !py_int_decimal.
Qed.

Lemma range_entry_solid (a b : Z) :
  forallb (fun c => negb (isspace c)) (range_entry a b) = true.
Proof.
  unfold range_entry. rewrite forallb_app. cbn [forallb].
  now rewrite !decimal_solid.
Qed.

Lemma py_int_raises (t : str) (e : exn) :
  py_int t = Raise e -> e = ValueError.
Proof.
  rewrite py_int_read. destruct (read_number (int_strip t)) as [n |].
  - destruct (Z.of_nat (length (filter is_digit (int_strip t)))
              <=? max_str_digits); [discriminate | now intros [= <-]].
  - now intros [= <-].
Qed.

(** X8.  A page number or a range typed in decimal, with a file loaded
    and no number longer than the 4300 digits that [int] reads: the entry
    ["<a>"] extracts page [a] alone, and ["<a>-<b>"] the pages [a] to [b]
    of the document that hold ink, in page order, with their own numbers.
    Numbers past the end of the document are cut to it; 0, a number past
    the end or a reversed range give no page and no dialog. *)
Theorem typed_range_is_extracted (fs : FileSystem) (app : App) (c : ascii)
    (path : str) (doc : Document) (a b : Z) :
  pdf_path app = Some (c :: path) -> fs (c :: path) = Some doc ->
  0 <= a -> 0 <= b ->
  len (decimal a) <= max_str_digits -> len (decimal b) <= max_str_digits ->
  (pages_entry app = decimal a ->
   extracted (extract_clicked fs app)
   = flat_map (page_entry doc)
       (range (Z.max 0 (a - 1)) (Z.min (page_count doc) a))
   /\ dialogs (extract_clicked fs app) = dialogs app)
  /\ (pages_entry app = range_entry a b ->
      extracted (extract_clicked fs app)
      = flat_map (page_entry doc)
          (range (Z.max 0 (a - 1)) (Z.min (page_count doc) b))
      /\ dialogs (extract_clicked fs app) = dialogs app).
Proof.
  intros Hpath Hfs Ha Hb Hcapa Hcapb. split; intros Hentry.
  - destruct (extract_clicked_accepts fs app c path doc (a - 1) (a - 1)
                Hpath Hfs) as [Hext Hdlg].
    + rewrite Hentry, (strip_solid _ (decimal_solid a)).
      apply decimal_not_empty.
    + rewrite Hentry, (strip_solid _ (decimal_solid a)).
      now apply parse_single.
    + rewrite Hext, Hdlg. split; [| reflexivity].
      now replace (Z.min (page_count doc - 1) (a - 1) + 1)
        with (Z.min (page_count doc) a) by lia.
  - destruct (extract_clicked_accepts fs app c path doc (a - 1) (b - 1)
                Hpath Hfs) as [Hext Hdlg].
    + rewrite Hentry, (strip_solid _ (range_entry_solid a b)).
      unfold range_entry. now destruct (decimal a).
    + rewrite Hentry, (strip_solid _ (range_entry_solid a b)).
      now apply parse_pair.
    + rewrite Hext, Hdlg. split; [| reflexivity].
      now replace (Z.min (page_count doc - 1) (b - 1) + 1)
        with (Z.min (page_count doc) b) by lia.
Qed.

Lemma typed_range_is_extracted_witness :
  extracted (extract_clicked (one_file (s "book.pdf") five_pages)
               (app_with (s "book.pdf") (s "2-4") []))
  = flat_map (page_entry five_pages)
      (range (Z.max 0 (2 - 1)) (Z.min (page_count five_pages) 4))
  /\ dialogs (extract_clicked (one_file (s "book.pdf") five_pages)
                (app_with (s "book.pdf") (s "2-4") []))
     = dialogs (app_with (s "book.pdf") (s "2-4") []).
Proof.
  apply (proj2 (typed_range_is_extracted
                  (one_file (s "book.pdf") five_pages)
                  (app_with (s "book.pdf") (s "2-4") [])
                  "b"%char (s "ook.pdf") five_pages 2 4
                  eq_refl eq_refl ltac:(lia) ltac:(lia)
                  ltac:(vm_compute; discriminate)
                  ltac:(vm_compute; discriminate))).
  reflexivity.
Defined.

(** X9.  What [int] refuses is refused as a range: an entry that begins
    with a hyphen (a negative number, or a range without its start) and an
    entry ["<t>-"] without its end both show the "Invalid range" dialog and
    change nothing else -- the page list and the list box stay as they
    were. *)
Theorem open_ranges_are_rejected (fs : FileSystem) (app : App) (c : ascii)
    (path : str) (t : str) :
  pdf_path app = Some (c :: path) ->
  strip (pages_entry app) = hyphen :: t
  \/ (strip (pages_entry app) = t ++ [hyphen]
      /\ forallb (fun x => negb (Ascii.eqb x hyphen)) t = true) ->
  extract_clicked fs app = show ErrorInvalidRange app.
Proof.
  intros Hpath Hentry. unfold extract_clicked. rewrite Hpath.
  cbv beta iota zeta.
  assert (Hparse : truthy (strip (pages_entry app)) = true
                   /\ parse_page_range (strip (pages_entry app))
                      = Raise ValueError).
  { destruct Hentry as [-> | [-> Hno]].
    - split; [reflexivity |]. unfold parse_page_range.
      cbn [split]. rewrite Ascii.eqb_refl.
      match goal with
      | |- (if ?test then _ else _) = _ => destruct test
      end; reflexivity.
    - split; [now destruct t |]. unfold parse_page_range.
      rewrite (split_at_sep _ _ _ Hno). cbn [split length Nat.eqb item nth].
      unfold bind. destruct (py_int t) as [n | e] eqn:E; [reflexivity |].
      now rewrite (py_int_raises _ _ E). }
  destruct Hparse as [-> ->]. reflexivity.
Qed.

Lemma open_ranges_are_rejected_witness :
  extract_clicked (one_file (s "book.pdf") five_pages)
    (app_with (s "book.pdf") (s " -5 ") [(9, s "old")])
  = show ErrorInvalidRange (app_with (s "book.pdf") (s " -5 ") [(9, s "old")]).
Proof.
  apply (open_ranges_are_rejected (one_file (s "book.pdf") five_pages)
           (app_with (s "book.pdf") (s " -5 ") [(9, s "old")])
           "b"%char (s "ook.pdf") (s "5")).
  - reflexivity.
  - left. reflexivity.
Defined.

(** ** What cleaning does to a text *)

Lemma lstrip_split (t : str) :
  exists w, t = w ++ lstrip t /\ blank w = true.
Proof.
  induction t as [| c t (w & Ht & Hw)]; [now exists [] |].
  cbn [lstrip]. destruct (isspace c) eqn:E.
  - exists (c :: w). split; [simpl; now f_equal |].
    unfold blank in *. simpl. now rewrite E.
  - now exists [].
Qed.

Lemma blank_rev (w : str) : blank (rev w) = blank w.
Proof.
  unfold blank. induction w as [| c w IH]; [reflexivity |].
  simpl. rewrite forallb_app, IH. simpl. rewrite andb_true_r.
  apply andb_comm.
Qed.

(** [strip] takes whitespace off both ends, and nothing else. *)
Lemma strip_split (t : str) :
  exists before after,
    t = before ++ strip t ++ after
    /\ blank before = true /\ blank after = true.
Proof.
  destruct (lstrip_split t) as (w1 & Ht & Hw1).
  destruct (lstrip_split (rev (lstrip t))) as (w2 & Hr & Hw2).
  exists w1, (rev w2). split; [| split; [exact Hw1 | now rewrite blank_rev]].
  unfold strip, rstrip. rewrite <- rev_app_distr, <- Hr, rev_involutive.
  exact Ht.
Qed.

Lemma strip_ends (t : str) :
  (forall c u, strip t = c :: u -> isspace c = false)
  /\ (forall u d, strip t = u ++ [d] -> isspace d = false).
Proof.
  split.
  - intros c u Hs.
    destruct (lstrip_split (rev (lstrip t))) as (w & Hr & _).
    apply (f_equal (@rev ascii)) in Hr.
    rewrite rev_involutive, rev_app_distr in Hr.
    fold (rstrip (lstrip t)) in Hr. fold (strip t) in Hr.
    rewrite Hs in Hr. simpl in Hr. now apply (lstrip_head t c _ Hr).
  - intros u d Hs. unfold strip, rstrip in Hs.
    apply (f_equal (@rev ascii)) in Hs.
    rewrite rev_involutive, rev_app_distr in Hs. simpl in Hs.
    now apply (lstrip_head _ _ _ Hs).
Qed.

Lemma ink_app (t u : str) : ink (t ++ u) = ink t ++ ink u.
Proof. apply filter_app. Qed.

Lemma ink_cons (c : ascii) (t : str) :
  ink (c :: t) = if isspace c then ink t else c :: ink t.
Proof. unfold ink. simpl. now destruct (isspace c). Qed.

Lemma ink_blank (w : str) : blank w = true -> ink w = [].
Proof.
  unfold blank. induction w as [| c w IH]; [reflexivity |]. cbn [forallb].
  intros H. apply andb_prop in H. destruct H as [Hc Hw].
  rewrite ink_cons, Hc. now apply IH.
Qed.

Lemma no_ink_blank (w : str) : has_ink w = false -> blank w = true.
Proof.
  unfold blank. induction w as [| c w IH]; [reflexivity |].
  rewrite has_ink_cons. intros H. apply orb_false_iff in H.
  destruct H as [Hc Hw]. simpl. rewrite (IH Hw).
  now destruct (isspace c).
Qed.

Lemma ink_strip (t : str) : ink (strip t) = ink t.
Proof.
  destruct (strip_split t) as (before & after & Ht & Hb & Ha).
  rewrite Ht at 2.
  now rewrite !ink_app, (ink_blank _ Hb), (ink_blank _ Ha), app_nil_r.
Qed.

Lemma ink_sub_blank_lines (t : str) (skip : nat) :
  has_ink (firstn skip t) = false ->
  ink (sub_blank_lines skip t) = ink (skipn skip t).
Proof.
  revert skip. induction t as [| c tl IH]; intros skip Hskip.
  - now destruct skip.
  - destruct skip as [| k].
    + cbn [sub_blank_lines skipn].
      destruct (match_blank_lines (c :: tl)) as [[| k] |] eqn:Em.
      * rewrite !ink_cons, (IH O); reflexivity.
      * simpl in Em. destruct (Ascii.eqb c newline) eqn:En; [| discriminate].
        destruct (match_ws_nl tl) as [k' |] eqn:Ew; [| discriminate].
        injection Em as <-.
        pose proof (match_ws_nl_no_ink _ _ Ew) as Hk.
        rewrite !ink_cons, (newline_is_space _ En).
        change (isspace newline) with true. cbv iota.
        rewrite (IH k' Hk).
        rewrite <- (firstn_skipn k' tl) at 2.
        now rewrite ink_app, (ink_blank _ (no_ink_blank _ Hk)).
      * rewrite !ink_cons, (IH O); reflexivity.
    + cbn [sub_blank_lines skipn]. apply IH.
      simpl firstn in Hskip. rewrite has_ink_cons in Hskip.
      now apply orb_false_iff in Hskip.
Qed.

Lemma ink_remove_char (c : ascii) (t : str) :
  isspace c = true -> ink (remove_char c t) = ink t.
Proof.
  intros Hc. unfold remove_char.
  induction t as [| x tl IH]; [reflexivity |]. cbn [filter].
  destruct (Ascii.eqb x c) eqn:E; cbn [negb].
  - apply Ascii.eqb_eq in E. subst x. now rewrite ink_cons, Hc.
  - now rewrite !ink_cons, IH.
Qed.

(** X10.  Cleaning touches whitespace only: the characters of a page that
    are not whitespace come out of [clean_text] unchanged and in the same
    order. *)
Theorem clean_text_keeps_the_ink (t : str) : ink (clean_text t) = ink t.
Proof.
  unfold clean_text.
  rewrite ink_strip, ink_remove_char by reflexivity.
  now rewrite (ink_sub_blank_lines t O).
Qed.

Lemma newline_run_le (t : str) : (newline_run t <= length t)%nat.
Proof.
  induction t as [| c t IH]; [simpl; lia |]. simpl.
  destruct (Ascii.eqb c newline); simpl; lia.
Qed.

Lemma match_ws_nl_bounds (t : str) (k : nat) :
  match_ws_nl t = Some k -> (1 <= k <= length t)%nat.
Proof.
  revert k. induction t as [| c t IH]; intros k; simpl; [discriminate |].
  destruct (if isspace c then match_ws_nl t else None) as [k' |] eqn:E.
  - intros [= <-]. destruct (isspace c); [| discriminate].
    specialize (IH _ E). lia.
  - destruct (Ascii.eqb c newline); [| discriminate].
    intros [= <-]. pose proof (newline_run_le t). lia.
Qed.

Lemma sub_blank_lines_length (t : str) (skip : nat) :
  (length (sub_blank_lines skip t) <= length (skipn skip t))%nat.
Proof.
  revert skip. induction t as [| c tl IH]; intros skip.
  - destruct skip; simpl; lia.
  - destruct skip as [| k]; cbn [sub_blank_lines skipn]; [| apply IH].
    destruct (match_blank_lines (c :: tl)) as [[| k] |] eqn:Em;
      try (specialize (IH O); simpl in *; lia).
    simpl in Em. destruct (Ascii.eqb c newline); [| discriminate].
    destruct (match_ws_nl tl) as [k' |] eqn:Ew; [| discriminate].
    injection Em as <-. pose proof (match_ws_nl_bounds _ _ Ew).
    specialize (IH k'). rewrite length_skipn in IH. simpl. lia.
Qed.

Lemma strip_length (t : str) : (length (strip t) <= length t)%nat.
Proof.
  destruct (strip_split t) as (before & after & Ht & _ & _).
  rewrite Ht at 2. rewrite !length_app. lia.
Qed.

(** X11.  Cleaning never makes a page longer. *)
Theorem clean_text_never_grows (t : str) : len (clean_text t) <= len t.
Proof.
  unfold clean_text, len, remove_char.
  pose proof (strip_length
                (filter (fun x => negb (Ascii.eqb x form_feed))
                   (sub_blank_lines 0 t))).
  pose proof (filter_length_le (fun x => negb (Ascii.eqb x form_feed))
                (sub_blank_lines 0 t)).
  pose proof (sub_blank_lines_length t 0). simpl skipn in *. lia.
Qed.

Lemma in_strip (c : ascii) (t : str) : In c (strip t) -> In c t.
Proof.
  intros Hin. destruct (strip_split t) as (before & after & Ht & _ & _).
  rewrite Ht. apply in_or_app. right. apply in_or_app. now left.
Qed.

(** X12.  A cleaned page is empty, or it begins and ends with a character
    that is not whitespace; and it holds no form feed. *)
Theorem clean_text_is_trimmed (t : str) :
  (forall c u, clean_text t = c :: u -> isspace c = false)
  /\ (forall u d, clean_text t = u ++ [d] -> isspace d = false)
  /\ ~ In form_feed (clean_text t).
Proof.
  unfold clean_text. repeat split.
  - apply strip_ends.
  - apply strip_ends.
  - intros Hin. apply in_strip in Hin. unfold remove_char in Hin.
    apply filter_In in Hin. destruct Hin as [_ Hne].
    now rewrite Ascii.eqb_refl in Hne.
Qed.

(** ** The extracted pages *)

Lemma range_sorted (a b : Z) : StronglySorted Z.lt (range a b).
Proof.
  unfold range. generalize (Z.to_nat (b - a)) as n. generalize 0%nat as from.
  intros from n. revert from.
  induction n as [| n IH]; intros from; [constructor |].
  cbn [seq map]. constructor; [apply IH |].
  apply Forall_forall. intros x Hx. apply in_map_iff in Hx.
  destruct Hx as (k & <- & Hk). apply in_seq in Hk. lia.
Qed.

Lemma entries_sorted (doc : Document) (pages : list Z) :
  StronglySorted Z.lt pages ->
  StronglySorted Z.lt (map fst (flat_map (page_entry doc) pages)).
Proof.
  induction 1 as [| i rest Hrest IH Hall]; [constructor |].
  cbn [flat_map]. rewrite map_app.
  assert (Hlater : Forall (Z.lt (i + 1))
                     (map fst (flat_map (page_entry doc) rest))).
  { apply Forall_forall. intros n Hn. apply in_map_iff in Hn.
    destruct Hn as ([m t] & <- & Hin). apply in_flat_map in Hin.
    destruct Hin as (j & Hj & Hin).
    destruct (in_page_entry _ _ _ _ Hin) as (_ & _ & _ & -> & _).
    rewrite Forall_forall in Hall. specialize (Hall _ Hj). simpl. lia. }
  unfold page_entry at 1.
  destruct (nth_error doc (Z.to_nat i)) as [raw |]; [| exact IH].
  destruct (has_ink raw); [| exact IH].
  simpl. now constructor.
Qed.

(** X13.  The pages come out in order and once each: in every result of
    [extract_text_from_pdf] the page numbers rise strictly, and each lies
    in the document and in the range asked for. *)
Theorem extracted_pages_ascend (fs : FileSystem) (path : str)
    (doc : Document) (start_page end_page : option Z)
    (logs : list LogMsg) (pages : list (Z * str)) :
  fs path = Some doc ->
  extract_text_from_pdf fs path start_page end_page = (logs, Ok pages) ->
  StronglySorted Z.lt (map fst pages)
  /\ forall n t, In (n, t) pages ->
       1 <= n <= page_count doc
       /\ (forall p, start_page = Some p -> p + 1 <= n)
       /\ (forall p, end_page = Some p -> n <= p + 1).
Proof.
  intros Hfs Hrun.
  destruct (extract_text_from_pdf_spec fs path doc start_page end_page Hfs)
    as (logs' & Hspec).
  rewrite Hspec in Hrun. injection Hrun as _ <-. split.
  - apply entries_sorted, range_sorted.
  - intros n t Hin. apply in_flat_map in Hin. destruct Hin as (i & Hi & Hin).
    apply in_range in Hi.
    destruct (in_page_entry _ _ _ _ Hin) as (_ & _ & _ & -> & _).
    repeat split.
    + destruct start_page; lia.
    + destruct end_page; lia.
    + intros p ->. lia.
    + intros p ->. lia.
Qed.

Lemma extracted_pages_ascend_witness :
  StronglySorted Z.lt (map fst [(1, s "Hello world"); (3, s "More text")])
  /\ forall n t, In (n, t) [(1, s "Hello world"); (3, s "More text")] ->
       1 <= n <= page_count three_pages
       /\ (forall p, Some 0 = Some p -> p + 1 <= n)
       /\ (forall p, Some 2 = Some p -> n <= p + 1).
Proof.
  apply (extracted_pages_ascend (one_file (s "book.pdf") three_pages)
           (s "book.pdf") three_pages (Some 0) (Some 2)
           [PageChars 1 11; PageSkipped 2; PageChars 3 9]);
    reflexivity.
Defined.

(** X14.  A file that cannot be opened, under a range that is accepted: no
    dialog is shown and the error goes to the log; the page list
    [extracted] is left as it was, but the list box has already been
    emptied -- the window shows no page while the old pages can still be
    converted. *)
Theorem unreadable_file_empties_the_list_box (fs : FileSystem) (app : App)
    (c : ascii) (path : str) :
  pdf_path app = Some (c :: path) -> fs (c :: path) = None ->
  truthy (strip (pages_entry app)) = false
  \/ (exists r, parse_page_range (strip (pages_entry app)) = Ok r) ->
  extracted (extract_clicked fs app) = extracted app
  /\ pages_list (extract_clicked fs app) = []
  /\ log_text (extract_clicked fs app)
     = log_text app ++ [ExtractionError FileError]
  /\ dialogs (extract_clicked fs app) = dialogs app.
Proof.
  intros Hpath Hfs Hentry. unfold extract_clicked. rewrite Hpath.
  cbv beta iota zeta.
  assert (Hparsed : exists r,
            (if truthy (strip (pages_entry app))
             then parse_page_range (strip (pages_entry app))
             else Ok (None, None)) = Ok r).
  { destruct Hentry as [-> | [r Hr]]; [now eexists |].
    destruct (truthy (strip (pages_entry app))); eauto. }
  destruct Hparsed as ([start_page end_page] & ->).
  unfold extract_text_from_pdf, fitz_open. rewrite Hfs.
  cbn [log set_pages_list extracted pages_list log_text dialogs].
  now rewrite app_nil_r.
Qed.

Lemma unreadable_file_empties_the_list_box_witness :
  extracted (extract_clicked no_file with_old_pages) = [(9, s "old")]
  /\ pages_list (extract_clicked no_file with_old_pages) = []
  /\ log_text (extract_clicked no_file with_old_pages)
     = log_text with_old_pages ++ [ExtractionError FileError]
  /\ dialogs (extract_clicked no_file with_old_pages)
     = dialogs with_old_pages.
Proof.
  apply (unreadable_file_empties_the_list_box no_file with_old_pages
           "g"%char (s "one.pdf")).
  - reflexivity.
  - reflexivity.
  - right. now eexists.
Defined.

Lemma slice_prefix (t : str) (n : Z) :
  0 <= n -> slice t 0 n = firstn (Z.to_nat n) t.
Proof.
  intros Hn. pose proof (len_nonneg t).
  destruct (Z_le_gt_dec n (len t)) as [Hle | Hgt].
  - rewrite slice_range by lia. now rewrite Z.sub_0_r.
  - rewrite slice_clamp, slice_all by lia.
    symmetry. apply firstn_all2. unfold len in *. lia.
Qed.

Lemma preview_shape (text : str) :
  len (preview text) = Z.min 120 (len text)
  /\ ~ In newline (preview text)
  /\ preview text
     = map (fun c => if Ascii.eqb c newline then space else c)
         (firstn 120 text).
Proof.
  unfold preview. rewrite slice_prefix by lia.
  change (Z.to_nat 120) with 120%nat. repeat split.
  - unfold len. rewrite length_map, length_firstn. lia.
  - intros Hin. apply in_map_iff in Hin. destruct Hin as (c & Hc & _).
    destruct (Ascii.eqb c newline) eqn:E; [discriminate |].
    subst c. now rewrite Ascii.eqb_refl in E.
Qed.

(** X15.  After an extraction that [extract_clicked] accepts and the
    document allows, the list box follows the page list: it holds one line
    per extracted page, in the same order and under the same page number,
    and each line previews the first 120 characters of the page on one
    line -- at most 120 characters, none of them a newline. *)
Theorem list_box_follows_the_pages (fs : FileSystem) (app : App)
    (c : ascii) (path : str) (doc : Document) :
  pdf_path app = Some (c :: path) -> fs (c :: path) = Some doc ->
  truthy (strip (pages_entry app)) = false
  \/ (exists r, parse_page_range (strip (pages_entry app)) = Ok r) ->
  pages_list (extract_clicked fs app)
  = map (fun page => (fst page, preview (snd page)))
      (extracted (extract_clicked fs app))
  /\ Forall (fun line => len (snd line) <= 120 /\ ~ In newline (snd line))
       (pages_list (extract_clicked fs app)).
Proof.
  intros Hpath Hfs Hentry.
  assert (Hlist : pages_list (extract_clicked fs app)
                  = map (fun page => (fst page, preview (snd page)))
                      (extracted (extract_clicked fs app))).
  { unfold extract_clicked. rewrite Hpath. cbv beta iota zeta.
    assert (Hparsed : exists r,
              (if truthy (strip (pages_entry app))
               then parse_page_range (strip (pages_entry app))
               else Ok (None, None)) = Ok r).
    { destruct Hentry as [-> | [r Hr]]; [now eexists |].
      destruct (truthy (strip (pages_entry app))); eauto. }
    destruct Hparsed as ([start_page end_page] & ->).
    destruct (extract_text_from_pdf_spec fs (c :: path) doc
                start_page end_page Hfs) as (logs & ->).
    cbn [log set_pages_list set_extracted extracted pages_list].
    apply map_ext. now intros [p text]. }
  split; [exact Hlist |]. rewrite Hlist.
  apply Forall_forall. intros line Hin. apply in_map_iff in Hin.
  destruct Hin as (page & <- & _). cbn [snd].
  destruct (preview_shape (snd page)) as (Hlen & Hnl & _).
  split; [lia | exact Hnl].
Qed.

Lemma list_box_follows_the_pages_witness :
  pages_list (extract_clicked (one_file (s "book.pdf") three_pages)
                (app_with (s "book.pdf") (s "") []))
  = map (fun page => (fst page, preview (snd page)))
      (extracted (extract_clicked (one_file (s "book.pdf") three_pages)
                    (app_with (s "book.pdf") (s "") [])))
  /\ Forall (fun line => len (snd line) <= 120 /\ ~ In newline (snd line))
       (pages_list (extract_clicked (one_file (s "book.pdf") three_pages)
                      (app_with (s "book.pdf") (s "") []))).
Proof.
  apply (list_box_follows_the_pages (one_file (s "book.pdf") three_pages)
           (app_with (s "book.pdf") (s "") []) "b"%char (s "ook.pdf")
           three_pages).
  - reflexivity.
  - reflexivity.
  - left. reflexivity.
Defined.

(** ** Blank lines after cleaning *)

Lemma sub_blank_lines_cons (c : ascii) (tl : str) :
  sub_blank_lines 0 (c :: tl)
  = if Ascii.eqb c newline then
      match match_ws_nl tl with
      | Some k => newline :: newline :: sub_blank_lines k tl
      | None => c :: sub_blank_lines 0 tl
      end
    else c :: sub_blank_lines 0 tl.
Proof.
  cbn [sub_blank_lines match_blank_lines].
  destruct (Ascii.eqb c newline); [| reflexivity].
  now destruct (match_ws_nl tl).
Qed.

Lemma sub_blank_lines_skip (t : str) (k : nat) :
  sub_blank_lines k t = sub_blank_lines 0 (skipn k t).
Proof.
  revert k. induction t as [| c tl IH]; intros [| k]; try reflexivity.
  cbn [sub_blank_lines skipn]. apply IH.
Qed.

(** A text is calm when [\s*\n+] does not match at its head: its leading
    whitespace holds no newline. *)
Lemma calm_cons (c : ascii) (tl : str) :
  match_ws_nl (c :: tl) = None <->
  Ascii.eqb c newline = false
  /\ (isspace c = true -> match_ws_nl tl = None).
Proof.
  cbn [match_ws_nl]. destruct (isspace c) eqn:Ec.
  - destruct (match_ws_nl tl) as [k |]; destruct (Ascii.eqb c newline);
      split; try discriminate; try tauto; intros [H1 H2];
      try discriminate; specialize (H2 eq_refl); discriminate.
  - destruct (Ascii.eqb c newline) eqn:En.
    + apply newline_is_space in En. congruence.
    + split; auto. intros _. split; auto. discriminate.
Qed.

Lemma calm_newline_run (t : str) :
  match_ws_nl t = None -> newline_run t = 0%nat.
Proof.
  destruct t as [| c tl]; [reflexivity |]. intros H.
  apply calm_cons in H. destruct H as [Hc _]. simpl. now rewrite Hc.
Qed.

(** What follows a match is calm. *)
Lemma calm_after_match (t : str) (k : nat) :
  match_ws_nl t = Some k -> match_ws_nl (skipn k t) = None.
Proof.
  revert k. induction t as [| c tl IH]; intros k; [discriminate |].
  cbn [match_ws_nl].
  destruct (if isspace c then match_ws_nl tl else None) as [k' |] eqn:E.
  - intros [= <-]. destruct (isspace c); [| discriminate].
    cbn [skipn]. now apply IH.
  - destruct (Ascii.eqb c newline) eqn:En; [| discriminate].
    intros [= <-]. rewrite (newline_is_space _ En) in E.
    cbn [skipn]. now rewrite (calm_newline_run _ E).
Qed.

Lemma tidy_sub_blank_lines (n : nat) :
  forall (t : str) (g : gap),
    (length t <= n)%nat ->
    g = Open \/ match_ws_nl t = None ->
    tidy_from g (sub_blank_lines 0 t) = true.
Proof.
  induction n as [| n IH]; intros [| c tl] g Hlen Hg; try reflexivity;
    [simpl in Hlen; lia |].
  simpl in Hlen. rewrite sub_blank_lines_cons.
  destruct (Ascii.eqb c newline) eqn:En.
  - destruct Hg as [-> | Hcalm];
      [| apply calm_cons in Hcalm; destruct Hcalm; congruence].
    destruct (match_ws_nl tl) as [k |] eqn:Em.
    + cbn [tidy_from]. change (Ascii.eqb newline newline) with true.
      cbv iota. rewrite sub_blank_lines_skip. apply IH.
      * rewrite length_skipn. lia.
      * right. now apply calm_after_match.
    + cbn [tidy_from]. rewrite En. apply IH; [lia | now right].
  - cbn [tidy_from]. rewrite En. destruct (isspace c) eqn:Ec.
    + destruct Hg as [-> | Hcalm]; [apply IH; [lia | now left] |].
      apply calm_cons in Hcalm. destruct Hcalm as [_ Hcalm].
      specialize (Hcalm Ec).
      destruct g; apply IH; auto; lia.
    + apply IH; [lia | now left].
Qed.

(** An open gap allows what a gap with one newline allows, and that what
    a closed gap allows. *)
Lemma tidy_weaken (t : str) :
  (tidy_from Closed t = true -> tidy_from One t = true)
  /\ (tidy_from One t = true -> tidy_from Open t = true).
Proof.
  induction t as [| c tl [IH1 IH2]]; [auto |]. cbn [tidy_from].
  destruct (Ascii.eqb c newline); [split; [discriminate | exact IH1] |].
  destruct (isspace c); auto.
Qed.

Lemma tidy_open (g : gap) (t : str) :
  tidy_from g t = true -> tidy_from Open t = true.
Proof.
  destruct (tidy_weaken t) as [H1 H2]. destruct g; auto.
Qed.

Lemma tidy_remove_char (c : ascii) (t : str) (g : gap) :
  isspace c = true -> Ascii.eqb c newline = false ->
  tidy_from g t = true -> tidy_from g (remove_char c t) = true.
Proof.
  intros Hc Hn. unfold remove_char. revert g.
  induction t as [| x tl IH]; intros g; [reflexivity |].
  cbn [filter]. destruct (Ascii.eqb x c) eqn:E; cbn [negb].
  - apply Ascii.eqb_eq in E. subst x. cbn [tidy_from]. rewrite Hn, Hc.
    intros H. apply IH.
    destruct (tidy_weaken tl) as [H1 H2]. destruct g; auto.
  - cbn [tidy_from]. destruct (Ascii.eqb x newline);
      [destruct g; auto; discriminate |].
    destruct (isspace x); [destruct g |]; auto.
Qed.

Lemma tidy_app (a b : str) (g : gap) :
  tidy_from g (a ++ b) = true ->
  tidy_from g a = true /\ tidy_from Open b = true.
Proof.
  revert g. induction a as [| x a IH]; intros g.
  - simpl. intros H. split; [reflexivity | now apply (tidy_open g)].
  - cbn [List.app tidy_from].
    destruct (Ascii.eqb x newline); [destruct g; auto; discriminate |].
    destruct (isspace x); [destruct g |]; auto.
Qed.

Lemma tidy_strip (t : str) : tidy t = true -> tidy (strip t) = true.
Proof.
  unfold tidy. intros H.
  destruct (strip_split t) as (before & after & Ht & _ & _).
  rewrite Ht in H. apply tidy_app in H. destruct H as [_ H].
  apply tidy_app in H. now destruct H as [H _].
Qed.

(** X16.  What [clean_text] is for: in a cleaned page no stretch of
    whitespace holds more than two newlines, and two only side by side --
    paragraphs are at most one blank line apart. *)
Theorem clean_text_is_tidy (t : str) : tidy (clean_text t) = true.
Proof.
  unfold clean_text. apply tidy_strip. unfold tidy.
  apply tidy_remove_char; [reflexivity | reflexivity |].
  apply (tidy_sub_blank_lines (length t)); [lia | now left].
Qed.

Lemma calm_of_closed (t : str) :
  tidy_from Closed t = true -> match_ws_nl t = None.
Proof.
  induction t as [| c tl IH]; [reflexivity |]. cbn [tidy_from].
  intros H. apply calm_cons.
  destruct (Ascii.eqb c newline); [discriminate |]. split; [reflexivity |].
  intros Hc. rewrite Hc in H. now apply IH.
Qed.

(** A tidy text has no blank lines left to merge. *)
Lemma sub_blank_lines_tidy (n : nat) :
  forall (t : str) (g : gap),
    (length t <= n)%nat -> tidy_from g t = true -> sub_blank_lines 0 t = t.
Proof.
  induction n as [| n IH]; intros [| c tl] g Hlen Htidy; try reflexivity;
    [simpl in Hlen; lia |].
  simpl in Hlen. rewrite sub_blank_lines_cons. cbn [tidy_from] in Htidy.
  destruct (Ascii.eqb c newline) eqn:En.
  - destruct (match_ws_nl tl) as [k |] eqn:Em.
    + destruct g; [| apply calm_of_closed in Htidy; congruence
                   | discriminate].
      destruct tl as [| x tl']; [discriminate |].
      cbn [tidy_from] in Htidy. destruct (Ascii.eqb x newline) eqn:Ex.
      * pose proof (calm_of_closed _ Htidy) as Hcalm.
        cbn [match_ws_nl] in Em.
        rewrite (newline_is_space _ Ex), Hcalm, Ex,
          (calm_newline_run _ Hcalm) in Em.
        injection Em as <-. cbn [sub_blank_lines].
        apply Ascii.eqb_eq in En, Ex. subst c x.
        rewrite (IH tl' Closed); [reflexivity | simpl in Hlen; lia | exact Htidy].
      * exfalso.
        assert (Hnone : match_ws_nl (x :: tl') = None).
        { apply calm_cons. split; [exact Ex |]. intros Hx.
          rewrite Hx in Htidy. now apply calm_of_closed. }
        congruence.
    + f_equal. destruct g; try discriminate; eapply IH; eauto; lia.
  - f_equal. destruct (isspace c); [destruct g |]; eapply IH; eauto; lia.
Qed.

Lemma filter_all {A : Type} (f : A -> bool) (l : list A) :
  (forall x, In x l -> f x = true) -> filter f l = l.
Proof.
  induction l as [| x l IH]; [reflexivity |]. intros H. simpl.
  rewrite (H x (or_introl eq_refl)). f_equal. apply IH.
  intros y Hy. apply H. now right.
Qed.

Lemma strip_fixed (t : str) :
  (forall c u, t = c :: u -> isspace c = false) ->
  (forall u d, t = u ++ [d] -> isspace d = false) ->
  strip t = t.
Proof.
  intros Hhead Hlast. unfold strip, rstrip.
  destruct t as [| c u]; [reflexivity |].
  rewrite (lstrip_ink_head c u (Hhead c u eq_refl)).
  destruct (exists_last (l := c :: u)) as (v & d & Hv); [discriminate |].
  rewrite Hv, rev_app_distr. cbn [rev List.app].
  rewrite (lstrip_ink_head d (rev v) (Hlast v d Hv)).
  cbn [rev]. now rewrite rev_involutive.
Qed.

Lemma strip_idempotent (t : str) : strip (strip t) = strip t.
Proof.
  destruct (strip_ends t) as [Hhead Hlast]. now apply strip_fixed.
Qed.

(** X17.  Cleaning a cleaned page changes nothing. *)
Theorem clean_text_idempotent (t : str) :
  clean_text (clean_text t) = clean_text t.
Proof.
  assert (Htidy : tidy_from Open (clean_text t) = true).
  { unfold clean_text. apply tidy_strip. unfold tidy.
    apply tidy_remove_char; [reflexivity | reflexivity |].
    apply (tidy_sub_blank_lines (length t)); [lia | now left]. }
  assert (Hff : ~ In form_feed (clean_text t)).
  { unfold clean_text, remove_char. intros Hin. apply in_strip in Hin.
    apply filter_In in Hin. destruct Hin as [_ Hne].
    now rewrite Ascii.eqb_refl in Hne. }
  assert (Hends : (forall c u, clean_text t = c :: u -> isspace c = false)
                  /\ (forall u d, clean_text t = u ++ [d]
                                  -> isspace d = false))
    by (unfold clean_text; apply strip_ends).
  destruct Hends as [Hhead Hlast].
  set (u := clean_text t) in *. unfold clean_text at 1.
  rewrite (sub_blank_lines_tidy (length u) u Open (Nat.le_refl _) Htidy).
  unfold remove_char. rewrite filter_all.
  - now apply strip_fixed.
  - intros x Hx. destruct (Ascii.eqb x form_feed) eqn:E; [| reflexivity].
    apply Ascii.eqb_eq in E. subst x. contradiction.
Qed.

(** ** Trimming before cleaning *)

Lemma newline_run_ink (u : str) (c : ascii) (b : str) :
  Ascii.eqb c newline = false -> newline_run (u ++ c :: b) = newline_run u.
Proof.
  intros Hc. induction u as [| x u IH]; simpl; [now rewrite Hc |].
  destruct (Ascii.eqb x newline); [now rewrite IH | reflexivity].
Qed.

Lemma ink_is_no_newline (c : ascii) :
  isspace c = false -> Ascii.eqb c newline = false.
Proof.
  intros Hc. destruct (Ascii.eqb c newline) eqn:E; [| reflexivity].
  apply newline_is_space in E. congruence.
Qed.

(** A match of [\s*\n+] does not look past a character that is not
    whitespace. *)
Lemma match_ws_nl_ink (u : str) (c : ascii) (b : str) :
  isspace c = false -> match_ws_nl (u ++ c :: b) = match_ws_nl u.
Proof.
  intros Hc. induction u as [| x u IH].
  - simpl. now rewrite Hc, (ink_is_no_newline _ Hc).
  - cbn [List.app match_ws_nl].
    now rewrite IH, (newline_run_ink u c b (ink_is_no_newline _ Hc)).
Qed.

Lemma sub_blank_lines_ink (c : ascii) (b : str) :
  isspace c = false ->
  forall (a : str) (k : nat),
    (k <= length a)%nat ->
    sub_blank_lines k (a ++ c :: b)
    = sub_blank_lines k a ++ c :: sub_blank_lines 0 b.
Proof.
  intros Hc. induction a as [| x a IH]; intros k Hk.
  - simpl in Hk. replace k with 0%nat by lia.
    cbn [List.app]. rewrite sub_blank_lines_cons.
    now rewrite (ink_is_no_newline _ Hc).
  - destruct k as [| k].
    + cbn [List.app]. rewrite !sub_blank_lines_cons, match_ws_nl_ink by auto.
      destruct (Ascii.eqb x newline).
      * destruct (match_ws_nl a) as [k |] eqn:Em.
        -- cbn [List.app]. do 2 f_equal. apply IH.
           apply (match_ws_nl_bounds _ _ Em).
        -- cbn [List.app]. f_equal. apply IH. lia.
      * cbn [List.app]. f_equal. apply IH. lia.
    + cbn [List.app sub_blank_lines]. apply IH. simpl in Hk. lia.
Qed.

Lemma first_ink (t : str) :
  has_ink t = true ->
  exists u c b, t = u ++ c :: b /\ blank u = true /\ isspace c = false.
Proof.
  induction t as [| x t IH]; [discriminate |].
  rewrite has_ink_cons. destruct (isspace x) eqn:Ex.
  - simpl. intros H. destruct (IH H) as (u & c & b & -> & Hu & Hc).
    exists (x :: u), c, b. repeat split; auto.
    unfold blank in *. simpl. now rewrite Ex.
  - intros _. now exists [], x, t.
Qed.

Lemma last_ink (t : str) :
  has_ink t = true ->
  exists a d u, t = a ++ d :: u /\ isspace d = false /\ blank u = true.
Proof.
  intros H. rewrite <- has_ink_rev in H.
  destruct (first_ink _ H) as (u & d & a & Hr & Hu & Hd).
  exists (rev a), d, (rev u). repeat split; auto.
  - apply (f_equal (@rev ascii)) in Hr.
    rewrite rev_involutive, rev_app_distr in Hr. simpl in Hr.
    now rewrite <- app_assoc in Hr.
  - now rewrite blank_rev.
Qed.

Lemma lstrip_pad (w x : str) : blank w = true -> lstrip (w ++ x) = lstrip x.
Proof.
  unfold blank. induction w as [| c w IH]; [reflexivity |]. simpl.
  intros H. apply andb_prop in H. destruct H as [-> Hw]. now apply IH.
Qed.

Lemma blank_no_ink (w : str) : blank w = true -> has_ink w = false.
Proof.
  unfold blank. induction w as [| c w IH]; [reflexivity |]. cbn [forallb].
  intros H. apply andb_prop in H. destruct H as [Hc Hw].
  now rewrite has_ink_cons, Hc, (IH Hw).
Qed.

Lemma strip_pad_left (w x : str) :
  blank w = true -> strip (w ++ x) = strip x.
Proof. intros Hw. unfold strip. now rewrite lstrip_pad. Qed.

Lemma lstrip_keeps_pad (x w : str) :
  has_ink x = true -> lstrip (x ++ w) = lstrip x ++ w.
Proof.
  induction x as [| c x IH]; [discriminate |].
  rewrite has_ink_cons. cbn [List.app lstrip].
  destruct (isspace c); [exact IH | reflexivity].
Qed.

Lemma strip_pad_right (x w : str) :
  blank w = true -> strip (x ++ w) = strip x.
Proof.
  intros Hw. destruct (has_ink x) eqn:Hx.
  - unfold strip, rstrip. rewrite (lstrip_keeps_pad x w Hx), rev_app_distr.
    now rewrite lstrip_pad by (now rewrite blank_rev).
  - assert (Hboth : has_ink (x ++ w) = false)
      by (now rewrite has_ink_app, Hx, (blank_no_ink _ Hw)).
    apply strip_no_ink in Hx, Hboth. congruence.
Qed.

Lemma cleaned_blank (w : str) :
  has_ink w = false ->
  blank (remove_char form_feed (sub_blank_lines 0 w)) = true.
Proof.
  intros Hw. apply no_ink_blank.
  rewrite has_ink_remove_char by reflexivity.
  now rewrite (has_ink_sub_blank_lines w O).
Qed.

Lemma remove_char_app (c : ascii) (t u : str) :
  remove_char c (t ++ u) = remove_char c t ++ remove_char c u.
Proof. apply filter_app. Qed.

Lemma clean_text_pad_left (w t : str) :
  blank w = true -> clean_text (w ++ t) = clean_text t.
Proof.
  intros Hw. destruct (has_ink t) eqn:Ht.
  - destruct (first_ink t Ht) as (u & c & b & -> & Hu & Hc).
    unfold clean_text. rewrite app_assoc.
    rewrite !(sub_blank_lines_ink c b Hc) by lia.
    rewrite !remove_char_app.
    rewrite (strip_pad_left
               (remove_char form_feed (sub_blank_lines 0 (w ++ u))))
      by (apply cleaned_blank;
          now rewrite has_ink_app, (blank_no_ink _ Hw), (blank_no_ink _ Hu)).
    rewrite (strip_pad_left (remove_char form_feed (sub_blank_lines 0 u)))
      by (apply cleaned_blank; now apply blank_no_ink).
    reflexivity.
  - assert (Hboth : has_ink (w ++ t) = false)
      by (now rewrite has_ink_app, Ht, (blank_no_ink _ Hw)).
    apply clean_text_empty in Ht, Hboth. congruence.
Qed.

Lemma clean_text_pad_right (t w : str) :
  blank w = true -> clean_text (t ++ w) = clean_text t.
Proof.
  intros Hw. destruct (has_ink t) eqn:Ht.
  - destruct (last_ink t Ht) as (a & d & u & -> & Hd & Hu).
    unfold clean_text. rewrite <- app_assoc. cbn [List.app].
    rewrite !(sub_blank_lines_ink d _ Hd) by lia.
    rewrite !remove_char_app.
    assert (Hcons : forall x,
              remove_char form_feed (d :: x) = [d] ++ remove_char form_feed x).
    { intros x. unfold remove_char. cbn [filter].
      destruct (Ascii.eqb d form_feed) eqn:E; [| reflexivity].
      apply Ascii.eqb_eq in E. now subst d. }
    rewrite !Hcons, !app_assoc.
    rewrite (strip_pad_right _
               (remove_char form_feed (sub_blank_lines 0 (u ++ w))))
      by (apply cleaned_blank;
          now rewrite has_ink_app, (blank_no_ink _ Hw), (blank_no_ink _ Hu)).
    rewrite (strip_pad_right _
               (remove_char form_feed (sub_blank_lines 0 u)))
      by (apply cleaned_blank; now apply blank_no_ink).
    reflexivity.
  - assert (Hboth : has_ink (t ++ w) = false)
      by (now rewrite has_ink_app, Ht, (blank_no_ink _ Hw)).
    apply clean_text_empty in Ht, Hboth. congruence.
Qed.

(** X18.  Trimming a page before cleaning it, as [extract_text_from_pdf]
    does, changes nothing: the text kept for a page is [clean_text] of the
    raw page text. *)
Theorem strip_before_clean_text (t : str) :
  clean_text (strip t) = clean_text t.
Proof.
  destruct (strip_split t) as (before & after & Ht & Hb & Ha).
  rewrite Ht at 2.
  now rewrite (clean_text_pad_left _ _ Hb), (clean_text_pad_right _ _ Ha).
Qed.

(** ** Playback *)

Lemma presses_app (env : Sound) (xs ys : list Button) (p : Player) :
  presses env (xs ++ ys) p = presses env ys (presses env xs p).
Proof. apply fold_left_app. Qed.

Lemma press_pause_calls (env : Sound) (p : Player) (b : Button) :
  filter is_pause_call (mixer (press env p b))
  = filter is_pause_call (mixer p)
    ++ (if is_pause_press b then alternate (paused p) 1 else [])
  /\ paused (press env p b) = xorb (paused p) (is_pause_press b).
Proof.
  destruct b as [filepath | |]; cbn [press is_pause_press].
  - unfold play. destruct (isfile env filepath); cbn [negb].
    + destruct (load_error env filepath);
        [| destruct (play_error env filepath)];
        cbn [mixer paused]; rewrite filter_app, xorb_false_r; auto.
    + cbn [mixer paused]. now rewrite app_nil_r, xorb_false_r.
  - unfold stop. cbn [mixer paused].
    now rewrite filter_app, xorb_false_r.
  - unfold pause. destruct (paused p); cbn [negb mixer paused];
      now rewrite filter_app.
Qed.

Lemma presses_pause_calls (env : Sound) (buttons : list Button) :
  forall p : Player,
    filter is_pause_call (mixer (presses env buttons p))
    = filter is_pause_call (mixer p)
      ++ alternate (paused p) (length (filter is_pause_press buttons))
    /\ paused (presses env buttons p)
       = xorb (paused p)
           (Nat.odd (length (filter is_pause_press buttons))).
Proof.
  induction buttons as [| b rest IH]; intros p.
  - cbn. now rewrite app_nil_r, xorb_false_r.
  - cbn [presses fold_left]. fold (presses env rest (press env p b)).
    destruct (IH (press env p b)) as [Hcalls Hflag].
    destruct (press_pause_calls env p b) as [Hcall1 Hflag1].
    rewrite Hcalls, Hflag, Hcall1, Hflag1. cbn [filter].
    destruct (is_pause_press b); cbn [length].
    + split.
      * now rewrite <- app_assoc.
      * rewrite Nat.odd_succ, <- Nat.negb_odd.
        now destruct (paused p), (Nat.odd _).
    + now rewrite app_nil_r, xorb_false_r.
Qed.

(** X19.  Only the Pause/Resume button moves the [paused] flag: playing
    and stopping leave it alone.  From a new player, whatever is played or
    stopped in between, the presses of Pause/Resume reach the mixer as
    pause, unpause, pause, ... in turn, and the flag is set exactly after
    an odd number of them -- so a track started while the flag is set gets
    "unpause" on the next press. *)
Theorem pause_presses_alternate (env : Sound) (buttons : list Button) :
  filter is_pause_call (mixer (presses env buttons new_player))
  = alternate false (length (filter is_pause_press buttons))
  /\ paused (presses env buttons new_player)
     = Nat.odd (length (filter is_pause_press buttons)).
Proof.
  destruct (presses_pause_calls env buttons new_player) as [Hcalls Hflag].
  rewrite Hcalls, Hflag. split; reflexivity.
Qed.

Lemma press_current (env : Sound) (p : Player) (b : Button) (f : str) :
  current (press env p b) = Some f ->
  current p = Some f
  \/ (b = PressPlay f /\ isfile env f = true
      /\ load_error env f = None /\ play_error env f = None).
Proof.
  destruct b as [filepath | |]; cbn [press].
  - unfold play. destruct (isfile env filepath) eqn:Ef; cbn [negb]; auto.
    destruct (load_error env filepath) eqn:El; auto.
    destruct (play_error env filepath) eqn:Ep; auto.
    cbn [current]. intros [= <-]. right. auto.
  - discriminate.
  - unfold pause. destruct (paused p); cbn [negb current]; auto.
Qed.

(** X20.  The track that a player calls current is one that was played
    with success: from a new player and after any presses, [current] is
    empty or names a file that a Play press asked for, that existed, and
    that the mixer loaded and started without raising; after a press of
    Stop it is empty until the next such Play. *)
Theorem current_was_played (env : Sound) (buttons : list Button) (f : str) :
  current (presses env buttons new_player) = Some f ->
  In (PressPlay f) buttons /\ isfile env f = true
  /\ load_error env f = None /\ play_error env f = None
  /\ exists before after,
       buttons = before ++ PressPlay f :: after /\ ~ In PressStop after.
Proof.
  induction buttons as [| b rest IH] using rev_ind; [discriminate |].
  rewrite presses_app. cbn [presses fold_left].
  fold (presses env rest new_player). intros Hcur.
  destruct (press_current _ _ _ _ Hcur) as [Hold | (-> & Hfile & Hload & Hplay)].
  - destruct (IH Hold) as (Hin & Hfile & Hload & Hplay & before & after
                           & -> & Hstop).
    repeat split; auto; [apply in_or_app; now left |].
    exists before, (after ++ [b]). split; [now rewrite <- app_assoc |].
    intros Hs. apply in_app_or in Hs. destruct Hs as [Hs | [-> | []]]; auto.
    discriminate Hcur.
  - repeat split; auto; [apply in_or_app; right; now left |].
    exists rest, []. split; auto.
Qed.

Lemma current_was_played_witness :
  In (PressPlay (s "page_1.mp3"))
     [PressStop; PressPlay (s "page_1.mp3"); PressPause]
  /\ isfile one_song (s "page_1.mp3") = true
  /\ load_error one_song (s "page_1.mp3") = None
  /\ play_error one_song (s "page_1.mp3") = None
  /\ exists before after,
       [PressStop; PressPlay (s "page_1.mp3"); PressPause]
       = before ++ PressPlay (s "page_1.mp3") :: after
       /\ ~ In PressStop after.
Proof.
  apply (current_was_played one_song
           [PressStop; PressPlay (s "page_1.mp3"); PressPause]
           (s "page_1.mp3")).
  reflexivity.
Defined.

(** ** What the buttons leave alone *)

Lemma export_page_setup (tape : Tape) (engine outdir : str) (page_no : Z)
    (chunks : list str) (app : App) :
  setup (export_page tape engine outdir page_no chunks app) = setup app.
Proof.
  unfold export_page, save_text_to_mp3_pyttsx3, save_text_to_mp3_gtts.
  destruct (str_eqb engine pyttsx3).
  - cbn [log tts_manager engine_name spoken].
    destruct (str_eqb (engine_name (tts_manager app)) pyttsx3); cbn [negb];
      [destruct (tape (length (spoken app))) |]; reflexivity.
  - cbn [log spoken]. destruct (tape (length (spoken app))); reflexivity.
Qed.

Lemma convert_pages_setup (fuel : nat) (tape : Tape) (engine outdir : str)
    (chunk_size : Z) :
  forall (pages : list (Z * str)) (app app' : App),
    convert_pages fuel tape engine outdir chunk_size pages app = Some app' ->
    setup app' = setup app.
Proof.
  induction pages as [| [page_no text] rest IH]; intros app app'.
  - now intros [= <-].
  - cbn [convert_pages].
    destruct (chunk_text fuel text chunk_size) as [chunks |]; [| discriminate].
    intros Hrun. rewrite (IH _ _ Hrun). apply export_page_setup.
Qed.

(** X21.  A conversion that ends has changed nothing of the window's
    state but the log, the dialogs and the record of engine calls: the
    file, the entry, the settings, the page list and the list box are as
    before, so the same pages can be converted again.  The manager is as
    before too, with one exception: when a job was run with pyttsx3 as the
    engine chosen and a manager built for pyttsx3, the manager now holds
    the rate of the window. *)
Theorem conversion_keeps_the_setup (fuel : nat) (tape : Tape)
    (outdir : str) (app app' : App) :
  convert_clicked fuel tape outdir app = Some app' ->
  setup app'
  = (pdf_path app, pages_entry app, engine_var app, rate_var app,
     chunk_var app, extracted app, pages_list app,
     if rate_is_set outdir app
     then mkTTSManager (engine_name (tts_manager app)) (Some (rate_var app))
     else tts_manager app).
Proof.
  unfold rate_is_set. destruct (truthy outdir) eqn:Hdir.
  - rewrite (convert_clicked_job _ _ _ _ Hdir).
    destruct (extracted app) as [| page rest] eqn:E.
    + intros [= <-]. unfold setup. cbn [show]. cbn. now rewrite E.
    + destruct (convert_pages fuel tape (engine_var app) outdir
                  (chunk_var app) (page :: rest) (job_start app))
        as [done |] eqn:Erun; [| discriminate].
      intros [= <-]. apply convert_pages_setup in Erun.
      change (setup (show (InfoDone outdir) (log [ConversionFinished] done)))
        with (setup done).
      rewrite Erun. unfold job_start, set_rate, setup.
      cbn [log engine_var rate_var tts_manager andb].
      destruct (str_eqb (engine_var app) pyttsx3);
        [destruct (str_eqb (engine_name (tts_manager app)) pyttsx3) |];
        cbn; now rewrite E.
  - unfold convert_clicked. destruct (extracted app) eqn:E.
    + intros [= <-]. unfold setup. cbn. now rewrite E.
    + rewrite Hdir. cbn [negb]. intros [= <-]. unfold setup. cbn.
      now rewrite E.
Qed.

Lemma conversion_keeps_the_setup_witness :
  setup offline_done
  = (pdf_path offline, pages_entry offline, engine_var offline,
     rate_var offline, chunk_var offline, extracted offline,
     pages_list offline,
     if rate_is_set (s "out") offline
     then mkTTSManager (engine_name (tts_manager offline))
            (Some (rate_var offline))
     else tts_manager offline).
Proof.
  apply (conversion_keeps_the_setup 100 network_down_on_third (s "out")
           offline offline_done).
  reflexivity.
Defined.




(** ** Numbers too long to read *)

Lemma uint_chars_digits (d : Decimal.uint) :
  filter is_digit (s (NilEmpty.string_of_uint d))
  = s (NilEmpty.string_of_uint d).
Proof. induction d; simpl; try rewrite IHd; reflexivity. Qed.

Lemma decimal_digits (n : Z) :
  0 <= n -> filter is_digit (decimal n) = decimal n.
Proof.
  destruct n as [| p | p]; [reflexivity | | lia]. intros _.
  rewrite decimal_pos. apply uint_chars_digits.
Qed.

(** X23.  [int] reads no more than 4300 digits, and [extract_clicked]
    treats what [int] refuses as a malformed range: with a file loaded, a
    page number written with more digits only shows the "Invalid range"
    dialog, and the page list, the list box and the log stay as they
    were. *)
Theorem oversized_number_is_rejected (fs : FileSystem) (app : App)
    (c : ascii) (path : str) (a : Z) :
  pdf_path app = Some (c :: path) ->
  0 <= a -> max_str_digits < len (decimal a) ->
  pages_entry app = decimal a ->
  extract_clicked fs app = show ErrorInvalidRange app.
Proof.
  intros Hpath Ha Hlong Hentry. unfold extract_clicked. rewrite Hpath.
  cbv beta iota zeta.
  rewrite Hentry, (strip_solid _ (decimal_solid a)), decimal_not_empty.
  unfold parse_page_range.
  rewrite (split_no_sep _ _ (decimal_no_hyphen a Ha)).
  cbn [length Nat.eqb item nth].
  rewrite py_int_read, (int_strip_solid _ (decimal_solid a)),
    read_number_decimal, (decimal_digits a Ha).
  unfold len in Hlong.
  destruct (Z.of_nat (length (decimal a)) <=? max_str_digits) eqn:E;
    [apply Z.leb_le in E; lia | reflexivity].
Qed.

Lemma oversized_number_is_rejected_witness :
  extract_clicked (one_file (s "book.pdf") five_pages) huge_entry
  = show ErrorInvalidRange huge_entry.
Proof.
  apply (oversized_number_is_rejected (one_file (s "book.pdf") five_pages)
           huge_entry "b"%char (s "ook.pdf") huge_number).
  - reflexivity.
  - vm_compute. discriminate.
  - vm_compute. reflexivity.
  - reflexivity.
Defined.
